(** * funnylog2: call tracing, class instrumentation, keyed singleton, logging facade

    A shallow embedding of [funnylog2/__init__.py].

    - [PyStr]      the text operations of Python the module relies on
                   ([str.replace], [str.strip], [str.split], [in], ...).
    - [PyVal]      the Python values that travel through a traced call,
                   their truth value and their text forms.
    - [Single]     the metaclass [Singleton]: key derivation, the weak cache,
                   a sequential semantics and an interleaving semantics
                   of [Singleton.__call__].
    - [Trace]      [is_static_method] and the closure [_trace.wrapped].
    - [Instrument] the class decorator [log] over a heap of objects.
    - [Facade]     the entry points of [logger] over an explicit call stack.
    - [Colour]     the console formatter [_ColoredFormatter].

    The modules [PyStrFacts], [TraceFacts], [SingleFacts], [InstrumentFacts]
    and [FacadeFacts] hold the properties.  Text is a [string] of bytes, the
    UTF-8 encoding of a Python [str]; line numbers refer to
    [funnylog2/__init__.py]. *)

From stdpp Require Import base strings list gmap pretty.
From Stdlib Require Import ZArith Ascii Lia.

Local Open Scope string_scope.
Local Open Scope list_scope.

(* ===================================================================== *)
(** ** Text *)
(* ===================================================================== *)

Module PyStr.

(** [s.startswith(p)] *)
Definition startswith (s p : string) : bool := String.prefix p s.

(** [sub in s] *)
Fixpoint contains (sub s : string) : bool :=
  String.prefix sub s ||
  match s with
  | EmptyString => false
  | String _ s' => contains sub s'
  end.

(** [s.find(text) > -1] *)
Definition find_gt_m1 (s text : string) : bool := contains text s.

(** [s.endswith(p)] *)
Definition endswith (s p : string) : bool :=
  String.prefix (String.rev p) (String.rev s).

(** [s.replace(old, new)] for a non-empty [old]: occurrences are taken from
    left to right and do not overlap.  [skip] counts the characters of an
    occurrence that are still to be passed over. *)
Fixpoint replace_from (old new : string) (skip : nat) (s : string) : string :=
  match s with
  | EmptyString => EmptyString
  | String c s' =>
      match skip with
      | S k => replace_from old new k s'
      | O =>
          if String.prefix old s
          then new +:+ replace_from old new (String.length old - 1) s'
          else String c (replace_from old new 0 s')
      end
  end.

(** [s.replace(old, new)]; with an empty [old] Python puts [new] before every
    character and at the end. *)
Definition replace (s old new : string) : string :=
  match old with
  | EmptyString =>
      (fix go (t : string) : string :=
         match t with
         | EmptyString => new
         | String c t' => new +:+ String c (go t')
         end) s
  | String _ _ => replace_from old new 0 s
  end.

Fixpoint lstrip_by (f : ascii -> bool) (s : string) : string :=
  match s with
  | EmptyString => EmptyString
  | String c s' => if f c then lstrip_by f s' else s
  end.

Fixpoint rstrip_by (f : ascii -> bool) (s : string) : string :=
  match s with
  | EmptyString => EmptyString
  | String c s' =>
      match rstrip_by f s' with
      | EmptyString => if f c then EmptyString else String c EmptyString
      | r => String c r
      end
  end.

Definition strip_by (f : ascii -> bool) (s : string) : string :=
  rstrip_by f (lstrip_by f s).

(** the text whose bytes are [l] *)
Definition bytes (l : list nat) : string :=
  fold_right (fun n s => String (ascii_of_nat n) s) EmptyString l.

(** the code points [str.strip()] removes, those for which [str.isspace] holds,
    each as its UTF-8 bytes: U+0009..U+000D, U+001C..U+001F, the space,
    U+0085, U+00A0, U+1680, U+2000..U+200A, U+2028, U+2029, U+202F, U+205F
    and U+3000 *)
Definition white_space : list string :=
  map bytes
    ([[9]; [10]; [11]; [12]; [13]; [28]; [29]; [30]; [31]; [32];
      [194; 133]; [194; 160]; [225; 154; 128]]
     ++ map (fun n => [226; 128; n]) (seq 128 11)
     ++ [[226; 128; 168]; [226; 128; 169]; [226; 128; 175];
         [226; 129; 159]; [227; 128; 128]]).

(** the number of bytes of the white-space code point [s] starts with, 0 when
    it starts with none *)
Definition space_ahead (s : string) : nat :=
  match List.find (fun w => String.prefix w s) white_space with
  | Some w => String.length w
  | None => 0
  end.

(** the same from the end: [t] is a text read backwards *)
Definition space_behind (t : string) : nat :=
  match List.find (fun w => String.prefix (String.rev w) t) white_space with
  | Some w => String.length w
  | None => 0
  end.

(** drops the code points that [ahead] finds at the front; [skip] counts the
    bytes of such a code point that are still to be passed over *)
Fixpoint lstrip_from (ahead : string -> nat) (skip : nat) (s : string) : string :=
  match s with
  | EmptyString => EmptyString
  | String c s' =>
      match skip with
      | S k => lstrip_from ahead k s'
      | O =>
          match ahead s with
          | S k => lstrip_from ahead k s'
          | O => s
          end
      end
  end.

(** [s.strip()]: white space is taken off the front, then off the end *)
Definition strip (s : string) : string :=
  String.rev
    (lstrip_from space_behind 0 (String.rev (lstrip_from space_ahead 0 s))).

(** [s.strip("'")] *)
Definition strip_quote (s : string) : string :=
  strip_by (fun c => Ascii.eqb c "'"%char) s.

(** [s.split(sep)] for a one-character separator *)
Fixpoint split_char (sep : ascii) (s : string) : list string :=
  match s with
  | EmptyString => [EmptyString]
  | String c s' =>
      if Ascii.eqb c sep then EmptyString :: split_char sep s'
      else match split_char sep s' with
           | h :: t => String c h :: t
           | [] => [String c EmptyString]
           end
  end.

(** ["".join(l)] *)
Definition join (l : list string) : string := String.concat "" l.

(** [re.split(m1|m2|..., s)[0]]: the text before the leftmost place where
    one of the literal alternatives matches *)
Fixpoint before_first (ms : list string) (s : string) : string :=
  if existsb (fun m => String.prefix m s) ms then EmptyString
  else match s with
       | EmptyString => EmptyString
       | String c s' => String c (before_first ms s')
       end.

Definition LF : ascii := ascii_of_nat 10.

(** the character [c] occurs in [s] *)
Fixpoint occurs (c : ascii) (s : string) : bool :=
  match s with
  | EmptyString => false
  | String d s' => Ascii.eqb d c || occurs c s'
  end.

End PyStr.

(* ===================================================================== *)
(** ** Values *)
(* ===================================================================== *)

Module PyVal.

(** The values a traced call or a constructor call carries.  [VEmpty] is the
    class [inspect.Parameter.empty], the default of a parameter that declares
    none; [VInst mro id] is an instance of a user class: [mro] lists the names
    of its class and of the bases, [id] is its identity. *)
Inductive value : Type :=
| VNone
| VBool (b : bool)
| VInt (z : Z)
| VStr (s : string)
| VEmpty
| VInst (mro : list string) (id : nat).

(** keyword arguments: a [dict] in insertion order *)
Definition kwargs : Type := list (string * value).

(** [bool(v)] ([if v:]); a class and a plain instance are true *)
Definition truthy (v : value) : bool :=
  match v with
  | VNone => false
  | VBool b => b
  | VInt z => negb (Z.eqb z 0)
  | VStr s => negb (String.eqb s "")
  | VEmpty => true
  | VInst _ _ => true
  end.

(** [isinstance(v, str)] *)
Definition is_str (v : value) : bool :=
  match v with VStr _ => true | _ => false end.

Definition class_of (mro : list string) : string :=
  match mro with c :: _ => c | [] => "object" end.

(** [repr] of an instance that defines none of its own *)
Definition object_repr (mro : list string) (id : nat) : string :=
  "<" +:+ class_of mro +:+ " object at " +:+ pretty id +:+ ">".

(** [str(v)], which is also [f"{v}"] *)
Definition py_str (v : value) : string :=
  match v with
  | VNone => "None"
  | VBool true => "True"
  | VBool false => "False"
  | VInt z => pretty z
  | VStr s => s
  | VEmpty => "<class 'inspect._empty'>"
  | VInst mro id => object_repr mro id
  end.

(** [repr(v)]; for a string the quoted form (escapes are not modelled) *)
Definition py_repr (v : value) : string :=
  match v with
  | VStr s => "'" +:+ s +:+ "'"
  | _ => py_str v
  end.

(** [isinstance(v, cls)] for a class given by name *)
Definition isinstance (v : value) (cls : string) : bool :=
  match v with
  | VInst mro _ => bool_decide (cls ∈ mro)
  | _ => false
  end.

(** [d[k]] on a keyword dictionary, [None] standing for [KeyError] *)
Fixpoint dict_get (d : kwargs) (k : string) : option value :=
  match d with
  | [] => None
  | (k', v) :: d' => if String.eqb k' k then Some v else dict_get d' k
  end.

(** [d[k] = v]: a present key keeps its place, a new one goes last *)
Fixpoint dict_set (d : kwargs) (k : string) (v : value) : kwargs :=
  match d with
  | [] => [(k, v)]
  | (k', v') :: d' =>
      if String.eqb k' k then (k', v) :: d' else (k', v') :: dict_set d' k v
  end.

End PyVal.

(* ===================================================================== *)
(** ** The keyed singleton *)
(* ===================================================================== *)

Module Single.
Import PyStr PyVal.

(** Lines 42-43: [kargs] joins [f"{key}"] over the positional arguments,
    [kkwargs] joins [f"{key}"] over [kwargs]; iterating a [dict] yields its
    keys. *)
Definition kargs (args : list value) : string :=
  match args with
  | [] => ""
  | _ => join (map py_str args)
  end.

Definition kkwargs (kw : kwargs) : string :=
  match kw with
  | [] => ""
  | _ => join (map (fun p => py_str (VStr (fst p))) kw)
  end.

(** [kargs + kkwargs], the key used at lines 45, 48 and 51 *)
Definition cache_key (args : list value) (kw : kwargs) : string :=
  kargs args +:+ kkwargs kw.

(** The key as the specification words it: the text of every positional
    argument, then the text of every keyword argument (its value). *)
Definition spec_key (args : list value) (kw : kwargs) : string :=
  join (map py_str args) +:+ join (map (fun p => py_str (snd p)) kw).

(** What [Singleton.__call__] reads and writes for one class.  Instances are
    numbered in the order the constructor produced them.  [cache] is
    [self._cache], which holds its values weakly; [instance] is the attribute
    [Singleton.__instance], an ordinary (strong) reference; [strong] is the set
    of instances some caller still holds; [born] counts constructor runs. *)
Record state : Type := mkState {
  cache : gmap string nat;
  instance : option nat;
  strong : gset nat;
  born : nat
}.

Definition initial : state :=
  {| cache := ∅; instance := None; strong := ∅; born := 0 |}.

Inductive outcome : Type :=
| Returned (i : nat)
| Raised.

(** The cache once [Singleton.__instance] has been bound to [i] (lines 47 and
    51): the instance the attribute held before, when it is another one and
    no caller holds it, loses its last reference there, and the weak
    dictionary drops the entries that pointed to it. *)
Definition rebound (st : state) (i : nat) : gmap string nat :=
  match instance st with
  | Some j =>
      if decide (j = i) then cache st
      else if decide (j ∈ strong st) then cache st
      else filter (fun kv => kv.2 ≠ j) (cache st)
  | None => cache st
  end.

Section Call.

(** [ctor args kw] tells whether [super().__call__], the constructor of the
    class, returns normally on these arguments. *)
Variable ctor : list value -> kwargs -> bool.

(** Lines 40-52 run by one thread without interruption.  A constructor that
    raises leaves line 47 before the attribute is bound. *)
Definition call (st : state) (args : list value) (kw : kwargs)
  : state * outcome :=
  let k := cache_key args kw in
  match cache st !! k with
  | None =>
      if ctor args kw then
        let i := born st in
        ({| cache := <[k := i]> (rebound st i);
            instance := Some i;
            strong := strong st;
            born := S (born st) |}, Returned i)
      else (st, Raised)
  | Some i =>
      ({| cache := rebound st i; instance := Some i;
          strong := strong st; born := born st |}, Returned i)
  end.

(** What may happen between two calls: a caller keeps the instance just
    returned, a caller gives one up, an instance nobody holds is reclaimed
    together with its cache entries, another construction call runs, or a
    class elsewhere that uses the metaclass is constructed and overwrites
    [Singleton.__instance], which all such classes share. *)
Inductive step : state -> state -> Prop :=
| step_hold st i :
    instance st = Some i ->
    step st {| cache := cache st; instance := instance st;
               strong := {[ i ]} ∪ strong st; born := born st |}
| step_release st i :
    step st {| cache := cache st; instance := instance st;
               strong := strong st ∖ {[ i ]}; born := born st |}
| step_collect st i :
    i ∉ strong st -> instance st ≠ Some i ->
    step st {| cache := filter (fun kv => kv.2 ≠ i) (cache st);
               instance := instance st;
               strong := strong st; born := born st |}
| step_call st args kw :
    step st (call st args kw).1
| step_elsewhere st :
    step st {| cache := cache st; instance := None;
               strong := strong st; born := born st |}.

(** a step that leaves the holders of [i] alone *)
Definition keeps (i : nat) (st st' : state) : Prop :=
  step st st' /\ (i ∈ strong st -> i ∈ strong st').

End Call.

(** the caller keeps the instance [i] it was handed *)
Definition held (i : nat) (st : state) : state :=
  {| cache := cache st; instance := instance st;
     strong := {[ i ]} ∪ strong st; born := born st |}.

(** every cached instance came out of an earlier constructor run *)
Definition sound (st : state) : Prop :=
  forall k j, cache st !! k = Some j -> j < born st.

(** *** Interleaved callers

    Each thread runs [__call__] for its own arguments; a thread switch may
    fall between any two of the statements below. *)
Inductive pc : Type :=
| AtCheck      (* line 45: [if kargs + kkwargs not in self._cache] *)
| AtAcquire    (* line 46: [with Singleton._instance_lock] *)
| AtConstruct  (* line 47: [Singleton.__instance = super().__call__(...)] *)
| AtStore      (* line 48: [self._cache[key] = Singleton.__instance] *)
| AtRelease    (* the end of the [with] block *)
| AtFetch      (* line 51: [Singleton.__instance = self._cache[key]] *)
| AtReturn     (* line 52: [return Singleton.__instance] *)
| Done (r : option nat)
| Failed.

Record thread : Type := mkThread {
  t_args : list value;
  t_kw : kwargs;
  t_pc : pc
}.

Record shared : Type := mkShared {
  s_cache : gmap string nat;
  s_instance : option nat;
  s_lock : option nat;          (* the thread inside the [with] block *)
  s_born : nat;
  s_threads : list thread
}.

Definition at_pc (t : thread) (p : pc) : thread :=
  {| t_args := t_args t; t_kw := t_kw t; t_pc := p |}.

Definition set_thread (sh : shared) (tid : nat) (t : thread) : shared :=
  {| s_cache := s_cache sh; s_instance := s_instance sh;
     s_lock := s_lock sh; s_born := s_born sh;
     s_threads := <[tid := t]> (s_threads sh) |}.

(** the instances the calls that have returned handed to their callers,
    who keep them *)
Definition handed (ts : list thread) : list nat :=
  omap (fun t => match t_pc t with Done r => r | _ => None end) ts.

(** [rebound] for the interleaved callers: binding [Singleton.__instance] to
    [i] at line 47 or 51 frees the instance the attribute held, unless a
    caller was handed it, and the weak dictionary drops its entries. *)
Definition s_rebound (sh : shared) (i : nat) : gmap string nat :=
  match s_instance sh with
  | Some j =>
      if decide (j = i) then s_cache sh
      else if decide (j ∈ handed (s_threads sh)) then s_cache sh
      else filter (fun kv => kv.2 ≠ j) (s_cache sh)
  | None => s_cache sh
  end.

(** One statement of thread [tid]; [None] when the thread does not exist,
    has finished, or waits for the lock. *)
Definition tstep (ctor : list value -> kwargs -> bool)
    (tid : nat) (sh : shared) : option shared :=
  t ← s_threads sh !! tid;
  let k := cache_key (t_args t) (t_kw t) in
  match t_pc t with
  | AtCheck =>
      match s_cache sh !! k with
      | None => Some (set_thread sh tid (at_pc t AtAcquire))
      | Some _ => Some (set_thread sh tid (at_pc t AtFetch))
      end
  | AtAcquire =>
      match s_lock sh with
      | Some _ => None
      | None =>
          Some {| s_cache := s_cache sh; s_instance := s_instance sh;
                  s_lock := Some tid; s_born := s_born sh;
                  s_threads := <[tid := at_pc t AtConstruct]> (s_threads sh) |}
      end
  | AtConstruct =>
      if ctor (t_args t) (t_kw t) then
        Some {| s_cache := s_rebound sh (s_born sh);
                s_instance := Some (s_born sh);
                s_lock := s_lock sh; s_born := S (s_born sh);
                s_threads := <[tid := at_pc t AtStore]> (s_threads sh) |}
      else
        Some {| s_cache := s_cache sh; s_instance := s_instance sh;
                s_lock := None; s_born := s_born sh;
                s_threads := <[tid := at_pc t Failed]> (s_threads sh) |}
  | AtStore =>
      match s_instance sh with
      | Some i =>
          Some {| s_cache := <[k := i]> (s_cache sh);
                  s_instance := s_instance sh;
                  s_lock := s_lock sh; s_born := s_born sh;
                  s_threads := <[tid := at_pc t AtRelease]> (s_threads sh) |}
      | None => None
      end
  | AtRelease =>
      Some {| s_cache := s_cache sh; s_instance := s_instance sh;
              s_lock := None; s_born := s_born sh;
              s_threads := <[tid := at_pc t AtReturn]> (s_threads sh) |}
  | AtFetch =>
      match s_cache sh !! k with
      | Some i =>
          Some {| s_cache := s_rebound sh i; s_instance := Some i;
                  s_lock := s_lock sh; s_born := s_born sh;
                  s_threads := <[tid := at_pc t AtReturn]> (s_threads sh) |}
      | None => Some (set_thread sh tid (at_pc t Failed))
      end
  | AtReturn => Some (set_thread sh tid (at_pc t (Done (s_instance sh))))
  | Done _ => None
  | Failed => None
  end.

(** a schedule names the thread that runs next *)
Fixpoint run (ctor : list value -> kwargs -> bool)
    (schedule : list nat) (sh : shared) : option shared :=
  match schedule with
  | [] => Some sh
  | tid :: rest =>
      match tstep ctor tid sh with
      | Some sh' => run ctor rest sh'
      | None => None
      end
  end.

(** every listed thread about to enter [__call__], nothing cached *)
Definition spawn (calls : list (list value * kwargs)) : shared :=
  {| s_cache := ∅; s_instance := None; s_lock := None; s_born := 0;
     s_threads := map (fun c => mkThread c.1 c.2 AtCheck) calls |}.

Definition results (sh : shared) : list pc := map t_pc (s_threads sh).


(** the statements inside the [with] block *)
Definition in_block (p : pc) : bool :=
  match p with
  | AtConstruct | AtStore | AtRelease => true
  | _ => false
  end.

(** at most one thread is inside the [with] block, and it holds the lock *)
Definition exclusive (sh : shared) : Prop :=
  forall tid t, s_threads sh !! tid = Some t -> in_block (t_pc t) = true ->
                s_lock sh = Some tid.

(** the state left when the instance [i], held by nobody, is reclaimed: the
    weak dictionary loses the entries that pointed to it *)
Definition reclaimed (i : nat) (st : state) : state :=
  {| cache := filter (fun kv => kv.2 ≠ i) (cache st);
     instance := instance st; strong := strong st; born := born st |}.

End Single.

(* ===================================================================== *)
(** ** The call tracer *)
(* ===================================================================== *)

Module Trace.
Import PyStr PyVal.

Inductive exn : Type :=
| IndexError
| KeyError
| TypeError
| AttributeError
| ValueError
| UserError (tag : string).

(** the outcome of calling a Python function *)
Inductive result : Type :=
| Return (v : value)
| Raise (e : exn).

(** [inspect._ParameterKind] *)
Inductive kind : Type :=
| POSITIONAL_ONLY
| POSITIONAL_OR_KEYWORD
| VAR_POSITIONAL
| KEYWORD_ONLY
| VAR_KEYWORD.

(** an [inspect.Parameter]; [p_default] is [VEmpty] when none is declared *)
Record param : Type := mkParam {
  p_name : string;
  p_kind : kind;
  p_default : value
}.

(** What [is_static_method] asks of the value [getattr(klass, attr)]:
    [inspect.isroutine], [isinstance(value, property)], the parameters of
    [inspect.signature(value)] ([None] when it has no signature) and
    [inspect.isfunction]. *)
Record member : Type := mkMember {
  m_isroutine : bool;
  m_isproperty : bool;
  m_signature : option (list param);
  m_isfunction : bool
}.

(** a class: its name and its attributes by name ([None]: no such one) *)
Record klass : Type := mkKlass {
  k_name : string;
  k_getattr : string -> option member
}.

(** [inspect._findclass(func)]: a class, [None], or a failed lookup along
    the qualified name *)
Inductive findclass : Type :=
| Found (k : klass)
| FoundNone
| FindRaises (e : exn).

(** the callable given to [_trace] *)
Record func : Type := mkFunc {
  f_name : string;                                  (* [__name__] *)
  f_doc : option string;                            (* [__doc__] *)
  f_params : list param;                            (* [inspect.signature] *)
  f_ismethod : bool;                                (* [inspect.ismethod] *)
  f_findclass : findclass;                          (* [inspect._findclass] *)
  f_body : list value -> kwargs -> result           (* the call itself *)
}.

Definition is_positional (p : param) : bool :=
  match p_kind p with
  | POSITIONAL_ONLY | POSITIONAL_OR_KEYWORD => true
  | _ => false
  end.

(** Lines 55-87. *)
Definition is_static_method (k : klass) (attr : string) : exn + bool :=
  if startswith attr "_" then inr false
  else
    match k_getattr k attr with
    | None => inl AttributeError
    | Some value =>
        if m_isroutine value then
          if m_isproperty value then inr false
          else
            match m_signature value with
            | None => inl ValueError
            | Some ps =>
                match map p_name (filter (fun p => is_positional p = true) ps) with
                | [] => inr true
                | first :: _ =>
                    if String.eqb first "self" then inr false
                    else inr (m_isfunction value)
                end
            end
        else inr false
    end.

(** Lines 94-114: the argument list the rest of [wrapped] works with.  An
    empty [a] raises [IndexError] at [a[0]], which is caught; any other
    failure leaves [wrapped]. *)
Definition resolve (f : func) (a : list value) : exn + list value :=
  match a with
  | [] => inr a
  | a0 :: rest =>
      match f_findclass f with
      | FindRaises e => inl e
      | FoundNone => inl TypeError
      | Found k =>
          if isinstance a0 (k_name k) && negb (String.eqb (f_name f) "__init__")
          then
            match is_static_method k (f_name f) with
            | inl e => inl e
            | inr static => if f_ismethod f || static then inr rest else inr a
            end
          else inr a
      end
  end.

(** the alternatives of the pattern at line 118 *)
Definition markers : list string :=
  [":param"; "@param"; "@return"; ":return"].

(** Lines 118-119. *)
Definition headline (doc : string) : string :=
  join (map strip (split_char LF (before_first markers doc))).

(** [f"{{{{{parameter}}}}}"] *)
Definition placeholder (parameter : string) : string :=
  "{{" +:+ parameter +:+ "}}".

(** Lines 142-151, the body of the replacement loop. *)
Definition subst_one (title : string) (binding : string * value) : string :=
  let (parameter, argument) := binding in
  if contains parameter title then
    if truthy argument then
      replace title (placeholder parameter)
        (match argument with
         | VStr s => strip_quote s
         | _ => py_str argument
         end)
    else replace title (placeholder parameter) ""
  else title.

(** Lines 141-151. *)
Definition substitute (title : string) (params_text : kwargs) : string :=
  fold_left subst_one params_text title.

Section Wrapped.

(** [ALLURE_STEP] and the three names imported with it; [represent] and
    [func_parameters] belong to the reporting library, whose step context
    shows in the events below. *)
Variable ALLURE_STEP : bool.
Variable represent : value -> string.
Variable func_parameters : func -> list value -> kwargs -> list (string * string).

(** Lines 125-139, one turn of the binding loop. *)
Definition bind_one (a : list value) (kw : kwargs)
    (params_text : kwargs) (index : nat) (p : param) : kwargs :=
  if String.eqb (p_name p) "self" then params_text
  else
    let d1 := dict_set params_text (p_name p) (p_default p) in
    let d2 :=
      if ALLURE_STEP then
        let args := map represent a in
        match args with
        | [] => d1
        | _ => match args !! index with
               | Some s => dict_set d1 (p_name p) (VStr s)
               | None => d1
               end
        end
      else d1 in
    match kw with
    | [] => d2
    | _ => match dict_get kw (p_name p) with
           | Some v => dict_set d2 (p_name p) v
           | None => d2
           end
    end.

(** Lines 120-139: [enumerate] over the declared parameters. *)
Fixpoint bind_from (a : list value) (kw : kwargs) (index : nat)
    (ps : list param) (params_text : kwargs) : kwargs :=
  match ps with
  | [] => params_text
  | p :: ps' => bind_from a kw (S index) ps' (bind_one a kw params_text index p)
  end.

Definition bind (f : func) (a : list value) (kw : kwargs) : kwargs :=
  bind_from a kw 0 (f_params f) [].

(** Lines 118-151: the rendered title of a documented public callable. *)
Definition render (f : func) (doc : string) (a : list value) (kw : kwargs)
  : string :=
  substitute (headline doc) (bind f a kw).

(** what a call of [wrapped] does that can be seen from outside *)
Inductive event : Type :=
| Log (message : string)       (* [logger.info(message, auteadd=False)] *)
| StepEnter (title : string) (params : list (string * string))
| StepExit
| Invoke (a : list value) (kw : kwargs).   (* the wrapped callable runs *)

(** [if func.__doc__:] *)
Definition has_doc (f : func) : option string :=
  match f_doc f with
  | Some d => if String.eqb d "" then None else Some d
  | None => None
  end.

(** Lines 156-163. *)
Definition announce (f : func) (title : string) (a : list value) (kw : kwargs)
  : list event * result :=
  let line := Log ("[" +:+ f_name f +:+ "]: " +:+ title) in
  if negb (String.eqb (f_name f) "__init__") then
    if ALLURE_STEP then
      ([line; StepEnter title (func_parameters f a kw); Invoke a kw; StepExit],
       f_body f a kw)
    else ([line], Return VNone)
  else ([line; Invoke a kw], f_body f a kw).

(** Lines 93-163, the closure [wrapped] that [_trace(func)] returns. *)
Definition wrapped (f : func) (a : list value) (kw : kwargs)
  : list event * result :=
  match resolve f a with
  | inl e => ([], Raise e)
  | inr a' =>
      match has_doc f with
      | Some doc =>
          if negb (startswith (f_name f) "_")
          then announce f (render f doc a' kw) a' kw
          else ([Invoke a' kw], f_body f a' kw)
      | None => announce f (f_name f) a' kw
      end
  end.

End Wrapped.

(** the runs of the wrapped callable among the events *)
Definition invocations (evs : list event) : list (list value * kwargs) :=
  omap (fun e => match e with Invoke a kw => Some (a, kw) | _ => None end) evs.

(** the lines handed to the logger *)
Definition logged (evs : list event) : list string :=
  omap (fun e => match e with Log m => Some m | _ => None end) evs.

(** [represent] of the reporting library: a string between single quotes,
    anything else by [repr]. *)
Definition allure_represent (v : value) : string :=
  match v with
  | VStr s => "'" +:+ s +:+ "'"
  | _ => py_repr v
  end.

(** [func_parameters] of the reporting library is only passed on to the step
    context; here it pairs each positional argument with its text. *)
Definition positional_texts (f : func) (a : list value) (kw : kwargs)
  : list (string * string) :=
  map (fun v => ("", allure_represent v)) a.

(** *** A sample class

    [class Calc] with [def add(self, a, b)] documented ["Adds {{a}} and {{b}}"],
    a static [plus(a, b)] with the same text, [open(self, x)] documented
    ["Open {{x}}"] and [wait(self, x=0)] documented ["Wait {{x}} s"]. *)
Definition P (n : string) : param := mkParam n POSITIONAL_OR_KEYWORD VEmpty.

Definition sig_add : list param := [P "self"; P "a"; P "b"].
Definition sig_plus : list param := [P "a"; P "b"].
Definition sig_open : list param := [P "self"; P "x"].
Definition sig_wait : list param :=
  [P "self"; mkParam "x" POSITIONAL_OR_KEYWORD (VInt 0)].

Definition routine (ps : list param) : member :=
  mkMember true false (Some ps) true.

Definition Calc : klass :=
  mkKlass "Calc" (fun n =>
    if String.eqb n "add" then Some (routine sig_add)
    else if String.eqb n "plus" then Some (routine sig_plus)
    else if String.eqb n "open" then Some (routine sig_open)
    else if String.eqb n "wait" then Some (routine sig_wait)
    else None).

Definition sum_body (a : list value) (kw : kwargs) : result :=
  match a with
  | [VInt x; VInt y] | [_; VInt x; VInt y] => Return (VInt (x + y))
  | _ => Raise TypeError
  end.

Definition add : func :=
  mkFunc "add" (Some "Adds {{a}} and {{b}}") sig_add false (Found Calc) sum_body.
Definition plus : func :=
  mkFunc "plus" (Some "Adds {{a}} and {{b}}") sig_plus false (Found Calc) sum_body.
Definition open : func :=
  mkFunc "open" (Some "Open {{x}}") sig_open false (Found Calc)
    (fun a kw =>
       match a, kw with
       | [_; _], [] | [_], [_] => Return VNone
       | _, _ => Raise TypeError
       end).
Definition wait : func :=
  mkFunc "wait" (Some "Wait {{x}} s") sig_wait false (Found Calc)
    (fun _ _ => Return VNone).

Definition calc : value := VInst ["Calc"] 7.

(** A plain function of a class whose first parameter is [self], with the
    class attribute of its name showing the same signature (as the wrapper
    that [functools.wraps] builds does). *)
Definition instance_method (f : func) : Prop :=
  f_ismethod f = false
  /\ (exists k m, f_findclass f = Found k
                 /\ k_getattr k (f_name f) = Some m
                 /\ m_signature m = Some (f_params f))
  /\ (exists p0 ps, f_params f = p0 :: ps
                   /\ p_name p0 = "self" /\ is_positional p0 = true).

(** the text the replacement loop puts in place of a placeholder *)
Definition shown (argument : value) : string :=
  if truthy argument then
    match argument with
    | VStr s => strip_quote s
    | _ => py_str argument
    end
  else "".


(** [wrapped] reaches a call of the callable: directly for a documented
    private name (line 153), through line 163 for [__init__], through the
    step context of lines 158-161 otherwise *)
Definition runs (ALLURE_STEP : bool) (f : func) : bool :=
  match has_doc f with
  | Some _ => startswith (f_name f) "_"
  | None => false
  end
  || String.eqb (f_name f) "__init__"
  || ALLURE_STEP.

(** [wrapped] returns at line 153, before the logger is called *)
Definition silent (f : func) : bool :=
  match has_doc f with
  | Some _ => startswith (f_name f) "_"
  | None => false
  end.

(** the title of lines 115-155 *)
Definition title_of (ALLURE_STEP : bool) (represent : value -> string)
    (f : func) (a : list value) (kw : kwargs) : string :=
  match has_doc f with
  | Some doc => render ALLURE_STEP represent f doc a kw
  | None => f_name f
  end.

(** A public plain function of the class [k] that [is_static_method] takes
    for static: the class attribute of its name is a function with no
    positional parameter, or with a first one not named [self]. *)
Definition static_function (f : func) (k : klass) : Prop :=
  f_findclass f = Found k
  /\ f_ismethod f = false
  /\ startswith (f_name f) "_" = false
  /\ f_name f <> "__init__"
  /\ exists m ps,
       k_getattr k (f_name f) = Some m
       /\ m_isroutine m = true /\ m_isproperty m = false
       /\ m_isfunction m = true
       /\ m_signature m = Some ps
       /\ head (map p_name (filter (fun p => is_positional p = true) ps))
          <> Some "self".

(** a function defined at module level, outside any class *)
Definition shout : func :=
  mkFunc "shout" (Some "Shouts {{text}}") [P "text"] false FoundNone
    (fun _ _ => Return VNone).

(** a method whose documentation has no placeholder *)
Definition refresh : func :=
  mkFunc "refresh" (Some "Reloads the page") [P "self"; P "force"] false
    (Found Calc) (fun _ _ => Return VNone).

End Trace.

(* ===================================================================== *)
(** ** The class instrumentor *)
(* ===================================================================== *)

Module Instrument.
Import PyStr.

(** the three lists of [config] that [log] reads *)
Record config : Type := mkConfig {
  CLASS_NAME_STARTSWITH : list string;
  CLASS_NAME_ENDSWITH : list string;
  CLASS_NAME_CONTAIN : list string
}.

(** what [inspect.isfunction] and [inspect.ismethod] say of an object *)
Inductive okind : Type :=
| IsFunction
| IsMethod
| IsOther.

(** An object a class attribute is bound to, with the attributes [log] and
    [functools.wraps] touch: [__qualname__], [__self__.__name__], the mark
    [__log] ([None]: no such attribute, otherwise its truth value) and
    [__wrapped__], the object a wrapper was made from. *)
Record obj : Type := mkObj {
  o_kind : okind;
  o_qualname : option string;
  o_self_name : option string;
  o_log : option bool;
  o_wrapped : option nat
}.

(** A class and the objects around it: [heap] holds the objects, a reference
    is an index into it; [attrs] lists the attributes of the class in the
    order [dir] gives them, each with the object it is bound to. *)
Record world : Type := mkWorld {
  heap : list obj;
  attrs : list (string * nat)
}.

Definition deref (w : world) (r : nat) : option obj := heap w !! r.

(** [getattr(cls, name)] *)
Fixpoint assoc (l : list (string * nat)) (name : string) : option nat :=
  match l with
  | [] => None
  | (n, r) :: l' => if String.eqb n name then Some r else assoc l' name
  end.

Definition getattr (w : world) (name : string) : option nat :=
  assoc (attrs w) name.

(** [setattr(cls, name, r)] *)
Fixpoint rebind (l : list (string * nat)) (name : string) (r : nat)
  : list (string * nat) :=
  match l with
  | [] => [(name, r)]
  | (n, r') :: l' =>
      if String.eqb n name then (n, r) :: l' else (n, r') :: rebind l' name r
  end.

Definition is_routine (o : obj) : bool :=
  match o_kind o with
  | IsFunction | IsMethod => true
  | IsOther => false
  end.

(** the test [getmembers] applies to an attribute, on a given heap *)
Definition routine_in (h : list obj) (m : string * nat) : Prop :=
  (is_routine <$> h !! m.2) = Some true.

#[global] Instance routine_in_dec (h : list obj) (m : string * nat) :
  Decision (routine_in h m).
Proof. unfold routine_in. apply _. Defined.

(** [inspect.getmembers(cls, lambda x: isfunction(x) or ismethod(x))] *)
Definition getmembers (w : world) : list (string * nat) :=
  filter (routine_in (heap w)) (attrs w).

(** Lines 173-176; [None] stands for the [AttributeError] of the handler. *)
Definition class_name (o : obj) : option string :=
  match o_qualname o with
  | Some q => head (split_char "."%char q)
  | None => o_self_name o
  end.

(** Lines 180-184. *)
Definition selected (cfg : config) (cname : string) : bool :=
  existsb (startswith cname) (CLASS_NAME_STARTSWITH cfg)
  || existsb (endswith cname) (CLASS_NAME_ENDSWITH cfg)
  || existsb (find_gt_m1 cname) (CLASS_NAME_CONTAIN cfg).

(** The object [_trace(obj)] returns: a new function on which
    [functools.wraps] has put the names and the [__dict__] of [obj]. *)
Definition traced (target : obj) (r : nat) : obj :=
  {| o_kind := IsFunction;
     o_qualname := o_qualname target;
     o_self_name := None;
     o_log := o_log target;
     o_wrapped := Some r |}.

Definition marked (o : obj) : obj :=
  {| o_kind := o_kind o; o_qualname := o_qualname o;
     o_self_name := o_self_name o; o_log := Some true;
     o_wrapped := o_wrapped o |}.

(** Lines 188-189 (and 191-192): [setattr(cls, name, _trace(obj))] followed by
    [setattr(getattr(cls, name), "__log", True)]. *)
Definition wrap_and_mark (w : world) (name : string) (r : nat)
  : option world :=
  target ← deref w r;
  let fresh := length (heap w) in
  let w1 := {| heap := heap w ++ [traced target r];
               attrs := rebind (attrs w) name fresh |} in
  cur ← getattr w1 name;
  o ← deref w1 cur;
  Some {| heap := <[cur := marked o]> (heap w1); attrs := attrs w1 |}.

(** Lines 173-192, one turn of the loop for the pair [(name, obj)]. *)
Definition log_member (cfg : config) (w : world) (m : string * nat)
  : option world :=
  let (name, r) := m in
  o ← deref w r;
  cname ← class_name o;
  if startswith name "_" then Some w
  else if selected cfg cname then
    cur ← getattr w name;
    c ← deref w cur;
    match o_log c with
    | Some flag => if negb flag then wrap_and_mark w name r else Some w
    | None => wrap_and_mark w name r
    end
  else Some w.

Fixpoint log_members (cfg : config) (ms : list (string * nat)) (w : world)
  : option world :=
  match ms with
  | [] => Some w
  | m :: ms' =>
      match log_member cfg w m with
      | Some w' => log_members cfg ms' w'
      | None => None
      end
  end.

(** Lines 168-193: [log(cls)]; the members are listed once, before the loop
    changes any attribute. *)
Definition log (cfg : config) (w : world) : option world :=
  log_members cfg (getmembers w) w.

(** every attribute is bound once and to an object of the heap *)
Definition wf (w : world) : Prop :=
  NoDup (attrs w).*1 /\ Forall (fun m => m.2 < length (heap w)) (attrs w).

(** functions and methods carry a [__qualname__] *)
Definition named_heap (h : list obj) : Prop :=
  forall r o, h !! r = Some o -> is_routine o = true ->
              is_Some (o_qualname o).

Definition named (w : world) : Prop := named_heap (heap w).

(** the members of [l] that [log] would look at all carry a true mark *)
Definition settled (cfg : config) (h : list obj) (l : list (string * nat))
  : Prop :=
  forall n r o cn,
    (n, r) ∈ l -> h !! r = Some o -> is_routine o = true ->
    class_name o = Some cn -> startswith n "_" = false ->
    selected cfg cn = true -> o_log o = Some true.

(** a sample: [class LoginWidget] with [click], [_hide], a class method
    [make] and the data attribute [title] *)
Definition widget : world :=
  {| heap := [ mkObj IsFunction (Some "LoginWidget._hide") None None None;
               mkObj IsFunction (Some "LoginWidget.click") None None None;
               mkObj IsMethod (Some "LoginWidget.make") (Some "LoginWidget") None None;
               mkObj IsOther None None None None ];
     attrs := [("_hide", 0); ("click", 1); ("make", 2); ("title", 3)] |}.

Definition by_suffix : config := mkConfig [] ["Widget"] [].


(** the members [log] wraps: public functions and methods of a selected
    class that do not carry a true mark yet *)
Definition wanted (cfg : config) (n : string) (o : obj) : bool :=
  is_routine o
  && negb (startswith n "_")
  && match class_name o with
     | Some cn => selected cfg cn
     | None => false
     end
  && negb (bool_decide (o_log o = Some true)).

(** [log] told as a plain recursion over the attributes: a wanted member is
    bound to the next free reference, where its marked wrapper goes; any
    other attribute keeps its binding.  The result is the new attribute list
    and the objects added to the heap. *)
Fixpoint instrumented (cfg : config) (h : list obj) (next : nat)
    (l : list (string * nat)) : list (string * nat) * list obj :=
  match l with
  | [] => ([], [])
  | (n, r) :: l' =>
      match h !! r with
      | Some o =>
          if wanted cfg n o
          then let rest := instrumented cfg h (S next) l' in
               ((n, next) :: rest.1, marked (traced o r) :: rest.2)
          else let rest := instrumented cfg h next l' in
               ((n, r) :: rest.1, rest.2)
      | None =>
          let rest := instrumented cfg h next l' in
          ((n, r) :: rest.1, rest.2)
      end
  end.

Definition no_rules : config := mkConfig [] [] [].

End Instrument.

(* ===================================================================== *)
(** ** The logging facade *)
(* ===================================================================== *)

Module Facade.
Import PyStr.

Inductive level : Type :=
| DEBUG
| INFO
| WARNING
| ERROR.

Inductive exn : Type :=
| ValueError        (* [sys._getframe]: call stack is not deep enough *)
| AttributeError.   (* [None.f_code] *)

Inductive outcome : Type :=
| Emitted (lvl : level) (message : string)
| Raised (e : exn).

(** The interpreter as [logger.debug] sees it: whether [sys] has [_getframe],
    the function names of the frames below the running one (the caller first),
    the number of handlers on the root logger, and whether the cache that the
    metaclass keeps for the class [logger] holds a live instance under the
    key of [config.LOG_LEVEL]. *)
Record env : Type := mkEnv {
  has_getframe : bool;
  callers : list string;
  handlers : nat;
  logger_cached : bool
}.

(** [sys._getframe(depth) if hasattr(sys, "_getframe") else None], then
    [.f_code.co_name], for [depth >= 1] *)
Definition frame_name (e : env) (depth : nat) : exn + string :=
  if has_getframe e then
    match callers e !! (depth - 1) with
    | Some n => inr n
    | None => inl ValueError
    end
  else inl AttributeError.

(** Lines 315-316 (as 306-307, 332-333, 341-342 and 347-348): with no handler
    on the root logger, [logger(config.LOG_LEVEL)] is called.  The call goes
    through [Singleton.__call__]: when the cache holds an instance for that
    level it is handed back and nothing is installed; otherwise
    [logger.__init__] runs, which empties the handler list and adds three
    handlers (lines 236 and 300-302), and the new instance is cached, held by
    [Singleton.__instance].  [logger.__init__] is taken to return: the log
    directory can be written and [config.LOG_LEVEL] names a level. *)
Definition ensure_sink (e : env) : env :=
  if Nat.eqb (handlers e) 0 then
    if logger_cached e then e
    else {| has_getframe := has_getframe e; callers := callers e;
            handlers := 3; logger_cached := true |}
  else e.

(** [logging.info], [logging.debug], [logging.error], [logging.warning] and
    [logging.exception] of the standard library start with
    [if len(root.handlers) == 0: basicConfig()], which puts one stream handler
    on the root logger. *)
Definition basic_config (e : env) : env :=
  if Nat.eqb (handlers e) 0 then
    {| has_getframe := has_getframe e; callers := callers e;
       handlers := 1; logger_cached := logger_cached e |}
  else e.

(** [logging.<lvl>(msg)] *)
Definition emit (e : env) (lvl : level) (msg : string) : env * outcome :=
  (basic_config e, Emitted lvl msg).

(** Lines 314-328. *)
Definition debug (e : env) (message : string) (auteadd : bool)
  : env * outcome :=
  let e1 := ensure_sink e in
  let prefixed :=
    if auteadd then
      match frame_name e1 1 with
      | inr n => inr ("[" +:+ n +:+ "]: " +:+ message)
      | inl x => inl x
      end
    else inr message in
  match prefixed with
  | inl x => (e1, Raised x)
  | inr msg =>
      match frame_name e1 2 with
      | inr n =>
          if startswith n "test_" then emit e1 INFO msg
          else emit e1 DEBUG msg
      | inl ValueError => emit e1 DEBUG msg
      | inl x => (e1, Raised x)
      end
  end.

(** the caller of the caller is named like a test function *)
Definition called_from_test (e : env) : bool :=
  match callers e !! 1 with
  | Some n => startswith n "test_"
  | None => false
  end.


(** Lines 308-310, 317-319 and 334-336: the message with the name of the
    caller in front when [auteadd] is set. *)
Definition with_caller (e : env) (message : string) (auteadd : bool)
  : exn + string :=
  if auteadd then
    match frame_name e 1 with
    | inr n => inr ("[" +:+ n +:+ "]: " +:+ message)
    | inl x => inl x
    end
  else inr message.

(** Lines 305-311. *)
Definition info (e : env) (message : string) (auteadd : bool)
  : env * outcome :=
  let e1 := ensure_sink e in
  match with_caller e1 message auteadd with
  | inr msg => emit e1 INFO msg
  | inl x => (e1, Raised x)
  end.

(** Lines 331-337. *)
Definition error (e : env) (message : string) (auteadd : bool)
  : env * outcome :=
  let e1 := ensure_sink e in
  match with_caller e1 message auteadd with
  | inr msg => emit e1 ERROR msg
  | inl x => (e1, Raised x)
  end.

(** Lines 340-343; [logging.exception] records at error severity. *)
Definition exception (e : env) (message : string) : env * outcome :=
  emit (ensure_sink e) ERROR message.

(** Lines 346-349. *)
Definition warning (e : env) (message : string) : env * outcome :=
  emit (ensure_sink e) WARNING message.

(** a call of one of the five entry points *)
Inductive request : Type :=
| CallInfo (message : string) (auteadd : bool)
| CallDebug (message : string) (auteadd : bool)
| CallError (message : string) (auteadd : bool)
| CallException (message : string)
| CallWarning (message : string).

Definition serve (e : env) (r : request) : env * outcome :=
  match r with
  | CallInfo m b => info e m b
  | CallDebug m b => debug e m b
  | CallError m b => error e m b
  | CallException m => exception e m
  | CallWarning m => warning e m
  end.

(** the call reached [logging] *)
Definition emits (o : outcome) : bool :=
  match o with
  | Emitted _ _ => true
  | Raised _ => false
  end.

(** The same process serving one call after the other, nothing else touching
    the root logger or the singleton in between; the frames below each call
    are those of its own call site.  The result is the number of handlers and
    the state of the cache at the end, and the outcomes in order. *)
Fixpoint serve_all (hs : nat) (lc : bool)
    (rs : list (bool * list string * request)) : nat * bool * list outcome :=
  match rs with
  | [] => (hs, lc, [])
  | (g, cs, r) :: rs' =>
      let res := serve (mkEnv g cs hs lc) r in
      let rest := serve_all (handlers res.1) (logger_cached res.1) rs' in
      (rest.1, res.2 :: rest.2)
  end.

End Facade.

(* ===================================================================== *)
(** ** The console formatter *)
(* ===================================================================== *)

Module Colour.
Import PyStr.

Definition ESC : ascii := ascii_of_nat 27.

(** the escape sequence [\033[<code>m] *)
Definition sgr (code : string) : string :=
  String ESC ("[" +:+ code +:+ "m").

Definition GREEN : string := sgr "1;32".
Definition WHITE : string := sgr "1;97".
Definition RED : string := sgr "1;31".
Definition BLUE : string := sgr "1;94".
Definition YELLOW : string := sgr "93".
Definition RESET : string := sgr "0".

(** the class [[a-zA-Z_]] *)
Definition is_label_char (c : ascii) : bool :=
  let n := nat_of_ascii c in
  (Nat.leb 65 n && Nat.leb n 90) || (Nat.leb 97 n && Nat.leb n 122)
  || Nat.eqb n 95.

(** after an opening bracket: letters and underscores up to the closing
    bracket; the text matched, bracket included, and what follows it *)
Fixpoint label_tail (s : string) : option (string * string) :=
  match s with
  | EmptyString => None
  | String c s' =>
      if Ascii.eqb c "]"%char then Some ("]", s')
      else if is_label_char c then
        match label_tail s' with
        | Some (l, r) => Some (String c l, r)
        | None => None
        end
      else None
  end.

(** the group [(\[[a-zA-Z_]*?])] at the start of [s] *)
Definition label (s : string) : option (string * string) :=
  match s with
  | String c s' =>
      if Ascii.eqb c "["%char then
        match label_tail s' with
        | Some (l, r) => Some (String c l, r)
        | None => None
        end
      else None
  | EmptyString => None
  end.

(** the longest run of characters other than the line feed at the start of
    [s], and what follows it: what [.+] takes when the run is not empty *)
Fixpoint line (s : string) : string * string :=
  match s with
  | EmptyString => (EmptyString, EmptyString)
  | String c s' =>
      if Ascii.eqb c LF then (EmptyString, s)
      else let r := line s' in (String c r.1, r.2)
  end.

(** The pattern [(\[[a-zA-Z_]*?])?(.+)] tried at the start of [s]: the two
    groups and the rest.  When the label is followed by nothing on its line
    the first group is given up and the second takes the label. *)
Definition match_here (s : string) : option (string * string * string) :=
  let plain :=
    let r := line s in
    if String.eqb r.1 "" then None else Some (EmptyString, r.1, r.2) in
  match label s with
  | Some (l, after) =>
      let r := line after in
      if String.eqb r.1 "" then plain else Some (l, r.1, r.2)
  | None => plain
  end.

(** [re.sub(pattern, GREEN \1 RESET colour \2 RESET, s, count=1)]: the
    leftmost match is replaced, a group that took no part counts as empty. *)
Fixpoint sub_first (colour : string) (s : string) : string :=
  match match_here s with
  | Some (g1, g2, rest) =>
      GREEN +:+ g1 +:+ RESET +:+ colour +:+ g2 +:+ RESET +:+ rest
  | None =>
      match s with
      | EmptyString => EmptyString
      | String c s' => String c (sub_first colour s')
      end
  end.

(** the fields of a [logging.LogRecord] that the formatter reads *)
Record record : Type := mkRecord {
  levelname : string;
  message : string;
  asctime : string
}.

(** Lines 198-221: the record as [formatMessage] leaves it. *)
Definition paint (r : record) : record :=
  if String.eqb (levelname r) "INFO" then
    {| levelname := WHITE +:+ "INFO " +:+ RESET;
       message := sub_first WHITE (message r);
       asctime := asctime r |}
  else if String.eqb (levelname r) "ERROR" then
    {| levelname := RED +:+ "ERROR" +:+ RESET;
       message := sub_first RED (message r);
       asctime := asctime r |}
  else if String.eqb (levelname r) "DEBUG" then
    {| levelname := BLUE +:+ "DEBUG" +:+ RESET;
       message := sub_first BLUE (message r);
       asctime := asctime r |}
  else r.

(** The format string of lines 291-297; [host] is the text of [sys_arch]
    followed by [ip_flag], pasted into the format before the formatter
    reads it. *)
Definition console_format (host : string) : string :=
  RED +:+ host +:+ RESET +:+ ": " +:+ YELLOW +:+ "%(asctime)s" +:+ RESET
  +:+ " | %(levelname)s | %(message)s".

(** [fmt % record.__dict__], what [logging.Formatter.formatMessage] returns
    (line 222), for the formats this model covers: an ordinary character is
    copied, [%%] gives one per cent sign, and each of the three fields gives
    the text of the record, which is not read again.  Any other use of the
    per cent sign (another key, another conversion, a lone sign) gives
    [None]: such a format is outside the model.  [skip] counts the characters
    of a field that are still to be passed over. *)
Fixpoint percent_from (r : record) (skip : nat) (s : string) : option string :=
  match s with
  | EmptyString => Some EmptyString
  | String c s' =>
      match skip with
      | S k => percent_from r k s'
      | O =>
          if Ascii.eqb c "%"%char then
            if String.prefix "%(asctime)s" s
            then (fun t => asctime r +:+ t) <$> percent_from r 10 s'
            else if String.prefix "%(levelname)s" s
            then (fun t => levelname r +:+ t) <$> percent_from r 12 s'
            else if String.prefix "%(message)s" s
            then (fun t => message r +:+ t) <$> percent_from r 10 s'
            else if String.prefix "%%" s
            then String "%"%char <$> percent_from r 1 s'
            else None
          else String c <$> percent_from r 0 s'
      end
  end.

(** Lines 197-223 with the format of lines 291-297. *)
Definition formatMessage (host : string) (r : record) : option string :=
  percent_from (paint r) 0 (console_format host).

(** [s] with every escape sequence [ESC ... m] taken out; [skipping] is set
    inside a sequence *)
Fixpoint plain_from (skipping : bool) (s : string) : string :=
  match s with
  | EmptyString => EmptyString
  | String c s' =>
      if skipping then
        if Ascii.eqb c "m"%char then plain_from false s'
        else plain_from true s'
      else if Ascii.eqb c ESC then plain_from true s'
      else String c (plain_from false s')
  end.

Definition plain (s : string) : string := plain_from false s.

(** every character of [s] passes the test [f] *)
Fixpoint every (f : ascii -> bool) (s : string) : bool :=
  match s with
  | EmptyString => true
  | String c s' => f c && every f s'
  end.

(** the level name as the console shows it: [INFO] is padded to five *)
Definition padded (lvl : string) : string :=
  if String.eqb lvl "INFO" then "INFO " else lvl.

End Colour.

(* ===================================================================== *)
(** ** Facts about the text operations *)
(* ===================================================================== *)

Module PyStrFacts.
Import PyStr.

Lemma prefix_app_l (a b s : string) :
  String.prefix (a +:+ b) s = true -> String.prefix a s = true.
Proof.
  revert s. induction a as [|c a IH]; intros s H.
  - destruct s; reflexivity.
  - destruct s as [|d s]; simpl in *; [discriminate|].
    destruct (Ascii.ascii_dec c d); [auto | discriminate].
Qed.

Lemma contains_unfold (sub s : string) :
  contains sub s =
  String.prefix sub s ||
  match s with EmptyString => false | String _ s' => contains sub s' end.
Proof. destruct s; reflexivity. Qed.

Lemma prefix_contains (sub s : string) :
  String.prefix sub s = true -> contains sub s = true.
Proof. intros H. rewrite contains_unfold, H. reflexivity. Qed.

Lemma contains_cons (sub : string) (c : ascii) (s : string) :
  contains sub s = true -> contains sub (String c s) = true.
Proof. intros H. rewrite contains_unfold, H. apply orb_true_r. Qed.

Lemma contains_tail (sub : string) (c : ascii) (s : string) :
  contains sub (String c s) = false ->
  String.prefix sub (String c s) = false /\ contains sub s = false.
Proof. rewrite contains_unfold. intros H. apply orb_false_elim in H. exact H. Qed.

(** where [old] occurs nowhere, [replace] changes nothing *)
Lemma replace_absent (s old new : string) :
  old <> "" -> contains old s = false -> replace s old new = s.
Proof.
  destruct old as [|c old]; [congruence|]. intros _. unfold replace.
  induction s as [|d s IH]; intros H; [reflexivity|].
  apply contains_tail in H as [Hp Hc].
  cbn [replace_from]. rewrite Hp. f_equal. auto.
Qed.

(** if every place where [b] starts holds an [a], then a text without [a]
    has no [b] *)
Lemma contains_false_weaken (a b s : string) :
  (forall t, String.prefix b t = true -> contains a t = true) ->
  contains a s = false -> contains b s = false.
Proof.
  intros Hab. induction s as [|d s IH]; intros H.
  - rewrite contains_unfold, orb_false_r.
    destruct (String.prefix b "") eqn:E; [|reflexivity].
    apply Hab in E. congruence.
  - apply contains_tail in H as [Hp Hc].
    rewrite contains_unfold, (IH Hc), orb_false_r.
    destruct (String.prefix b (String d s)) eqn:E; [|reflexivity].
    apply Hab in E. rewrite contains_unfold, Hp, Hc in E. discriminate.
Qed.

End PyStrFacts.

(* ===================================================================== *)
(** ** Facts about the call tracer *)
(* ===================================================================== *)

Module TraceFacts.
Import PyStr PyVal Trace PyStrFacts.

Lemma dict_get_set (d : kwargs) (k : string) (v : value) :
  dict_get (dict_set d k v) k = Some v.
Proof.
  induction d as [|[k' v'] d IH]; simpl.
  - rewrite String.eqb_refl. reflexivity.
  - destruct (String.eqb k' k) eqn:E; simpl; rewrite E; auto.
Qed.

(** a public name is not [__init__] *)
Lemma public_not_init (name : string) :
  startswith name "_" = false -> String.eqb name "__init__" = false.
Proof.
  intros H. destruct (String.eqb name "__init__") eqn:E; [|reflexivity].
  apply String.eqb_eq in E. subst name. discriminate H.
Qed.

(** a placeholder holds the name of its parameter *)
Lemma placeholder_has_name (parameter t : string) :
  String.prefix (placeholder parameter) t = true -> contains parameter t = true.
Proof.
  unfold placeholder. intros H.
  destruct t as [|c1 [|c2 t]]; simpl in H; try discriminate;
    repeat match type of H with
           | (if ?d then _ else _) = true => destruct d; [|discriminate]
           end; try discriminate.
  do 2 apply contains_cons. apply prefix_contains.
  apply prefix_app_l with (b := "}}"). exact H.
Qed.

(** the test at line 142 never changes the result of the replacement *)
Lemma subst_one_shown (title parameter : string) (argument : value) :
  subst_one title (parameter, argument)
  = replace title (placeholder parameter) (shown argument).
Proof.
  unfold subst_one, shown.
  destruct (contains parameter title) eqn:E.
  - destruct (truthy argument); reflexivity.
  - symmetry. apply replace_absent; [discriminate|].
    apply contains_false_weaken with (a := parameter); [|exact E].
    apply placeholder_has_name.
Qed.

Lemma substitute_shown (params_text : kwargs) (title : string) :
  substitute title params_text
  = fold_left (fun t b => replace t (placeholder b.1) (shown b.2))
      params_text title.
Proof.
  unfold substitute. revert title.
  induction params_text as [|[p v] l IH]; intros title; [reflexivity|].
  cbn [fold_left fst snd]. rewrite subst_one_shown. apply IH.
Qed.

Lemma dict_set_set (d : kwargs) (k : string) (v1 v2 : value) :
  dict_set (dict_set d k v1) k v2 = dict_set d k v2.
Proof.
  induction d as [|[k' v'] d IH]; simpl.
  - rewrite String.eqb_refl. reflexivity.
  - destruct (String.eqb k' k) eqn:E; simpl; rewrite E; [reflexivity|].
    f_equal. exact IH.
Qed.

Lemma dict_get_set_ne (d : kwargs) (k k' : string) (v : value) :
  k <> k' -> dict_get (dict_set d k v) k' = dict_get d k'.
Proof.
  intros Hne. induction d as [|[k0 v0] d IH]; simpl.
  - destruct (String.eqb k k') eqn:E; [|reflexivity].
    apply String.eqb_eq in E. contradiction.
  - destruct (String.eqb k0 k) eqn:E; simpl.
    + apply String.eqb_eq in E. subst k0.
      destruct (String.eqb k k') eqn:E'; [|reflexivity].
      apply String.eqb_eq in E'. contradiction.
    + destruct (String.eqb k0 k'); [reflexivity | exact IH].
Qed.

Section Wrapped.
Variable ALLURE_STEP : bool.
Variable represent : value -> string.
Variable func_parameters : func -> list value -> kwargs -> list (string * string).

Local Abbreviation bind_one := (bind_one ALLURE_STEP represent).
Local Abbreviation bind_from := (bind_from ALLURE_STEP represent).
Local Abbreviation render := (render ALLURE_STEP represent).
Local Abbreviation announce := (announce ALLURE_STEP func_parameters).
Local Abbreviation wrapped := (wrapped ALLURE_STEP represent func_parameters).

Lemma logged_announce (f : func) (title : string) (a : list value) (kw : kwargs) :
  logged (announce f title a kw).1 = ["[" +:+ f_name f +:+ "]: " +:+ title].
Proof.
  unfold announce.
  destruct (negb (String.eqb (f_name f) "__init__")), ALLURE_STEP; reflexivity.
Qed.

(** past the first position the receiver is never read *)
Lemma bind_one_tail (r1 r2 : value) (rest : list value) (kw : kwargs)
    (d : kwargs) (index : nat) (p : param) :
  bind_one (r1 :: rest) kw d (S index) p = bind_one (r2 :: rest) kw d (S index) p.
Proof. unfold Trace.bind_one. reflexivity. Qed.

Lemma bind_from_tail (r1 r2 : value) (rest : list value) (kw : kwargs)
    (ps : list param) :
  forall index d,
    bind_from (r1 :: rest) kw (S index) ps d
    = bind_from (r2 :: rest) kw (S index) ps d.
Proof.
  induction ps as [|p ps IH]; intros index d; [reflexivity|].
  simpl. rewrite (bind_one_tail r1 r2). apply IH.
Qed.

Lemma instance_method_not_static (f : func) (k : klass) :
  instance_method f -> f_findclass f = Found k ->
  is_static_method k (f_name f) = inr false.
Proof.
  intros (_ & (k' & m & Hk & Hm & Hs) & (p0 & ps & Hp & Hn & Hpos)) Hf.
  rewrite Hf in Hk. injection Hk as <-.
  unfold is_static_method.
  destruct (startswith (f_name f) "_"); [reflexivity|].
  rewrite Hm. destruct (m_isroutine m); [|reflexivity].
  destruct (m_isproperty m); [reflexivity|].
  rewrite Hs, Hp. rewrite filter_cons_True by exact Hpos.
  simpl. rewrite Hn. reflexivity.
Qed.

Lemma instance_method_resolve (f : func) (a : list value) :
  instance_method f -> resolve f a = inr a.
Proof.
  intros Hf. destruct a as [|a0 rest]; [reflexivity|].
  unfold resolve. pose proof Hf as (Hm & (k & m & Hk & _) & _).
  rewrite Hk.
  destruct (isinstance a0 (k_name k) && negb (String.eqb (f_name f) "__init__"));
    [|reflexivity].
  rewrite (instance_method_not_static f k Hf Hk), Hm. reflexivity.
Qed.

Lemma instance_method_render (f : func) (doc : string) (r1 r2 : value)
    (rest : list value) (kw : kwargs) :
  instance_method f ->
  render f doc (r1 :: rest) kw = render f doc (r2 :: rest) kw.
Proof.
  intros (_ & _ & (p0 & ps & Hp & Hn & _)).
  unfold Trace.render, bind. rewrite Hp. cbn [Trace.bind_from].
  assert (forall a, bind_one a kw [] 0 p0 = []) as Hself.
  { intros a. unfold Trace.bind_one. rewrite Hn. reflexivity. }
  rewrite !Hself, (bind_from_tail r1 r2). reflexivity.
Qed.

(** the loop either skips [self] or sets the name of the parameter once *)
Lemma bind_one_self_free (a : list value) (kw : kwargs) (d : kwargs)
    (index : nat) (p : param) :
  dict_get d "self" = None ->
  dict_get (bind_one a kw d index p) "self" = None.
Proof.
  intros Hd. unfold Trace.bind_one.
  destruct (String.eqb (p_name p) "self") eqn:E; [exact Hd|].
  assert (p_name p <> "self") as Hne.
  { intros Heq. rewrite Heq in E. discriminate. }
  repeat match goal with
         | |- context [match ?x with _ => _ end] => destruct x
         end;
    rewrite ?dict_get_set_ne by exact Hne; exact Hd.
Qed.

Lemma bind_from_self_free (a : list value) (kw : kwargs) (ps : list param) :
  forall index d,
    dict_get d "self" = None ->
    dict_get (bind_from a kw index ps d) "self" = None.
Proof.
  induction ps as [|p ps IH]; intros index d Hd; [exact Hd|].
  simpl. apply IH. apply bind_one_self_free. exact Hd.
Qed.

Lemma wrapped_resolved (f : func) (a a' : list value) (kw : kwargs) :
  resolve f a = inr a' ->
  wrapped f a kw =
  match has_doc f with
  | Some doc =>
      if negb (startswith (f_name f) "_")
      then announce f (render f doc a' kw) a' kw
      else ([Invoke a' kw], f_body f a' kw)
  | None => announce f (f_name f) a' kw
  end.
Proof. intros H. unfold Trace.wrapped. rewrite H. reflexivity. Qed.

End Wrapped.

(** with the reporting library at hand a documented public callable runs
    once, on the resolved arguments, and its outcome is handed back *)
Lemma step_reporting_runs_once (represent : value -> string)
    (fp : func -> list value -> kwargs -> list (string * string))
    (f : func) (a a' : list value) (kw : kwargs) :
  is_Some (has_doc f) -> startswith (f_name f) "_" = false ->
  resolve f a = inr a' ->
  invocations (wrapped true represent fp f a kw).1 = [(a', kw)]
  /\ (wrapped true represent fp f a kw).2 = f_body f a' kw.
Proof.
  intros [doc Hdoc] Hpub Hres.
  rewrite (wrapped_resolved _ _ _ _ _ _ _ Hres), Hdoc, Hpub. simpl negb. cbv iota.
  unfold announce. rewrite (public_not_init _ Hpub). split; reflexivity.
Qed.

(** C1 (the code departs from the claim).  Claim: a wrapped public callable
    with a documentation string is run exactly once by the wrapper and its
    result is returned, whether or not the step-reporting library is there.
    Without the library ([ALLURE_STEP] false) the wrapper logs the title and
    falls off its end: the callable is not run at all and [None] comes back,
    whatever the callable would have returned or raised. *)
Theorem without_step_reporting_nothing_runs (represent : value -> string)
    (fp : func -> list value -> kwargs -> list (string * string))
    (f : func) (a : list value) (kw : kwargs) :
  is_Some (has_doc f) -> startswith (f_name f) "_" = false ->
  invocations (wrapped false represent fp f a kw).1 = []
  /\ (forall a', resolve f a = inr a' ->
        (wrapped false represent fp f a kw).2 = Return VNone).
Proof.
  intros [doc Hdoc] Hpub. split.
  - unfold wrapped. destruct (resolve f a) as [e|a']; [reflexivity|].
    rewrite Hdoc, Hpub. simpl negb. cbv iota.
    unfold announce. rewrite (public_not_init _ Hpub). reflexivity.
  - intros a' Hres.
    rewrite (wrapped_resolved _ _ _ _ _ _ _ Hres), Hdoc, Hpub. simpl negb. cbv iota.
    unfold announce. rewrite (public_not_init _ Hpub). reflexivity.
Qed.

Lemma without_step_reporting_nothing_runs_witness :
  invocations
    (wrapped false allure_represent positional_texts add
       [calc; VInt 2; VInt 3] []).1 = []
  /\ (forall a', resolve add [calc; VInt 2; VInt 3] = inr a' ->
        (wrapped false allure_represent positional_texts add
           [calc; VInt 2; VInt 3] []).2 = Return VNone).
Proof.
  apply without_step_reporting_nothing_runs;
    [exists "Adds {{a}} and {{b}}"; reflexivity | reflexivity].
Defined.

(** C6 (the code departs from the claim).  Claim: a placeholder whose
    parameter got no value and has no default is replaced by the empty text.
    Such a parameter is bound to the class [inspect.Parameter.empty], which is
    true and not a string, so the placeholder is replaced by the text of that
    class; the logged title of [open(self, x)] called without [x] shows it. *)
Theorem unresolved_placeholder_shows_sentinel :
  (forall title x,
      subst_one title (x, VEmpty)
      = replace title (placeholder x) "<class 'inspect._empty'>")
  /\ (forall allure,
        bind allure allure_represent open [calc] [] = [("x", VEmpty)])
  /\ (forall allure,
        logged (wrapped allure allure_represent positional_texts open
                  [calc] []).1
        = ["[open]: Open <class 'inspect._empty'>"]).
Proof.
  split; [|split].
  - intros title x. apply subst_one_shown.
  - intros []; reflexivity.
  - intros []; reflexivity.
Qed.

(** C7, refuted as stated: with the positional arguments 2 and 3 and the
    keyword [a=5] the title reads "Adds 5 and 3", the keyword value wins over
    the positional one; and without the step-reporting library the positional
    arguments are not bound at all. *)
Lemma keyword_overrides_positional :
  render true allure_represent add "Adds {{a}} and {{b}}"
    [calc; VInt 2; VInt 3] [("a", VInt 5)] = "Adds 5 and 3"
  /\ render true allure_represent add "Adds {{a}} and {{b}}"
       [calc; VInt 2; VInt 3] [("a", VInt 5)] <> "Adds 2 and 3"
  /\ render false allure_represent add "Adds {{a}} and {{b}}"
       [calc; VInt 2; VInt 3] [] <> "Adds 2 and 3".
Proof. split; [reflexivity | split; discriminate]. Qed.

(** C7, amended: with the step-reporting library present, the method
    documented "Adds {{a}} and {{b}}" called with the positional arguments 2
    and 3 is titled "Adds 2 and 3" (through an instance and as a plain call
    of a static function); a parameter other than [self] is bound to the
    keyword argument of its name if there is one, else to the text of the
    positional argument at its index, else to its declared default. *)
Theorem title_binding_order :
  logged (wrapped true allure_represent positional_texts add
            [calc; VInt 2; VInt 3] []).1 = ["[add]: Adds 2 and 3"]
  /\ logged (wrapped true allure_represent positional_texts plus
               [VInt 2; VInt 3] []).1 = ["[plus]: Adds 2 and 3"]
  /\ (forall represent a kw d index p,
        bind_one true represent a kw d index p
        = if String.eqb (p_name p) "self" then d
          else dict_set d (p_name p)
                 (match dict_get kw (p_name p) with
                  | Some v => v
                  | None =>
                      match a !! index with
                      | Some x => VStr (represent x)
                      | None => p_default p
                      end
                  end)).
Proof.
  split; [reflexivity|]. split; [reflexivity|].
  intros represent a kw d index p. unfold bind_one.
  destruct (String.eqb (p_name p) "self"); [reflexivity|].
  rewrite list_lookup_fmap.
  destruct kw as [|b kw'].
  - simpl dict_get. destruct a as [|x a']; [reflexivity|].
    cbn [map]. destruct ((x :: a') !! index); simpl; [apply dict_set_set | reflexivity].
  - set (kw := b :: kw'). destruct (dict_get kw (p_name p)) as [v|].
    + destruct (map represent a); [apply dict_set_set|].
      destruct (a !! index); simpl; rewrite !dict_set_set; reflexivity.
    + destruct a as [|x a']; [reflexivity|].
      cbn [map]. destruct ((x :: a') !! index); simpl; [apply dict_set_set | reflexivity].
Qed.

(** C8, refuted as stated: the keyword value 0 is bound and present, yet its
    placeholder is replaced by the empty text, not by "0". *)
Lemma falsy_value_is_dropped :
  render true allure_represent wait "Wait {{x}} s" [calc] [("x", VInt 0)]
  = "Wait  s"
  /\ render true allure_represent wait "Wait {{x}} s" [calc] [("x", VInt 0)]
     <> "Wait 0 s"
  /\ subst_one "{{x}}" ("x", VBool false) <> "False".
Proof. split; [reflexivity | split; discriminate]. Qed.

(** C8, amended: every placeholder is replaced by the text [shown] of the
    bound value: for a true value, a string with the single quotes at its
    ends stripped and any other value by its [str]; for a false value (0,
    [False], [None], the empty string) the empty text. *)
Theorem placeholder_replaced_by_shown :
  (forall title parameter argument,
      subst_one title (parameter, argument)
      = replace title (placeholder parameter) (shown argument))
  /\ (forall title params_text,
        substitute title params_text
        = fold_left (fun t b => replace t (placeholder b.1) (shown b.2))
            params_text title)
  /\ (forall s, shown (VStr s) = strip_quote s)
  /\ (forall z, shown (VInt z) = if Z.eqb z 0 then "" else pretty z)
  /\ shown (VBool true) = "True" /\ shown (VBool false) = ""
  /\ shown VNone = "".
Proof.
  split; [exact subst_one_shown|]. split; [intros; apply substitute_shown|].
  split.
  - intros s. unfold shown. simpl. destruct s; reflexivity.
  - split; [|repeat split].
    intros z. unfold shown. simpl. destruct (Z.eqb z 0); reflexivity.
Qed.

(** C9, refuted as stated: for the instance method [add(self, a, b)] called
    through an instance, the receiver is still the first element of the
    argument list the title is rendered from. *)
Lemma receiver_stays_in_arguments :
  resolve add [calc; VInt 2; VInt 3] = inr [calc; VInt 2; VInt 3]
  /\ resolve add [calc; VInt 2; VInt 3] <> inr [VInt 2; VInt 3].
Proof. split; [reflexivity | discriminate]. Qed.

(** C9, amended: for an instance method (first parameter [self]) the
    receiver stays in the argument list, its parameter [self] is never bound,
    and the logged title is the same whatever the receiver is. *)
Theorem title_ignores_receiver (allure : bool) (represent : value -> string)
    (fp : func -> list value -> kwargs -> list (string * string))
    (f : func) (r1 r2 : value) (rest : list value) (kw : kwargs) :
  instance_method f ->
  resolve f (r1 :: rest) = inr (r1 :: rest)
  /\ dict_get (bind allure represent f (r1 :: rest) kw) "self" = None
  /\ logged (wrapped allure represent fp f (r1 :: rest) kw).1
     = logged (wrapped allure represent fp f (r2 :: rest) kw).1.
Proof.
  intros Hf. split; [apply instance_method_resolve; exact Hf|].
  split; [apply bind_from_self_free; reflexivity|].
  rewrite !(wrapped_resolved _ _ _ _ _ _ _ (instance_method_resolve _ _ Hf)).
  destruct (has_doc f) as [doc|].
  - destruct (negb (startswith (f_name f) "_")); [|reflexivity].
    rewrite !logged_announce.
    rewrite (instance_method_render allure represent f doc r1 r2 rest kw Hf).
    reflexivity.
  - rewrite !logged_announce. reflexivity.
Qed.

Lemma title_ignores_receiver_witness :
  resolve add [calc; VInt 2; VInt 3] = inr [calc; VInt 2; VInt 3]
  /\ dict_get (bind true allure_represent add [calc; VInt 2; VInt 3] []) "self"
     = None
  /\ logged (wrapped true allure_represent positional_texts add
               [calc; VInt 2; VInt 3] []).1
     = logged (wrapped true allure_represent positional_texts add
                 [VStr "someone else"; VInt 2; VInt 3] []).1.
Proof.
  apply title_ignores_receiver. split; [reflexivity|]. split.
  - exists Calc, (routine sig_add). repeat split; reflexivity.
  - exists (P "self"), [P "a"; P "b"]. repeat split; reflexivity.
Defined.

End TraceFacts.

(* ===================================================================== *)
(** ** Facts about the keyed singleton *)
(* ===================================================================== *)

Module SingleFacts.
Import PyStr PyVal Single.

Lemma join_names (kw : kwargs) :
  join (map (fun p => py_str (VStr p.1)) kw) = join (map fst kw).
Proof. reflexivity. Qed.

Lemma cache_key_unfold (args : list value) (kw : kwargs) :
  cache_key args kw = join (map py_str args) +:+ join (map fst kw).
Proof. unfold cache_key. destruct args, kw; reflexivity. Qed.

Section Call.
Variable ctor : list value -> kwargs -> bool.

(** binding the attribute adds no entry and changes none *)
Lemma rebound_lookup_Some (st : state) (i : nat) (k : string) (v : nat) :
  rebound st i !! k = Some v -> cache st !! k = Some v.
Proof.
  unfold rebound. destruct (instance st) as [j|]; [|auto].
  destruct (decide (j = i)); [auto|]. destruct (decide (j ∈ strong st)); [auto|].
  rewrite map_lookup_filter_Some. tauto.
Qed.

(** it keeps the entries of the instance it is bound to, of an instance a
    caller holds, and of an instance it did not hold before *)
Lemma rebound_lookup_keep (st : state) (i : nat) (k : string) (v : nat) :
  cache st !! k = Some v ->
  v = i \/ v ∈ strong st \/ instance st ≠ Some v ->
  rebound st i !! k = Some v.
Proof.
  intros Hk Hv. unfold rebound. destruct (instance st) as [j|]; [|exact Hk].
  destruct (decide (j = i)) as [->|Hji]; [exact Hk|].
  destruct (decide (j ∈ strong st)) as [Hj|Hj]; [exact Hk|].
  apply map_lookup_filter_Some. split; [exact Hk|]. simpl. intros ->.
  destruct Hv as [?|[?|?]]; congruence.
Qed.

Lemma rebound_lookup_None (st : state) (i : nat) (k : string) :
  cache st !! k = None -> rebound st i !! k = None.
Proof.
  intros Hk. destruct (rebound st i !! k) as [v|] eqn:E; [|reflexivity].
  apply rebound_lookup_Some in E. congruence.
Qed.

Lemma call_hit (st : state) (args : list value) (kw : kwargs) (i : nat) :
  cache st !! cache_key args kw = Some i ->
  call ctor st args kw
  = ({| cache := rebound st i; instance := Some i;
        strong := strong st; born := born st |}, Returned i).
Proof. intros H. unfold call. rewrite H. reflexivity. Qed.

Lemma call_miss (st : state) (args : list value) (kw : kwargs) :
  cache st !! cache_key args kw = None -> ctor args kw = true ->
  call ctor st args kw
  = ({| cache := <[cache_key args kw := born st]> (rebound st (born st));
        instance := Some (born st);
        strong := strong st; born := S (born st) |}, Returned (born st)).
Proof. intros H Hc. unfold call. rewrite H, Hc. reflexivity. Qed.

(** what a call leaves in the cache under its own key *)
Lemma call_returned (st st1 : state) (args : list value) (kw : kwargs) (i : nat) :
  call ctor st args kw = (st1, Returned i) ->
  cache st1 !! cache_key args kw = Some i /\ instance st1 = Some i
  /\ (sound st -> sound st1 /\ i < born st1).
Proof.
  unfold call. destruct (cache st !! cache_key args kw) as [j|] eqn:E.
  - intros [= <- <-]. simpl.
    split; [apply rebound_lookup_keep; [exact E | left; reflexivity]|].
    split; [reflexivity|].
    intros Hs. split; [|exact (Hs _ _ E)].
    intros k v Hk. simpl in Hk. apply rebound_lookup_Some in Hk.
    exact (Hs _ _ Hk).
  - destruct (ctor args kw); [|discriminate].
    intros [= <- <-]. simpl. rewrite lookup_insert_eq.
    split; [reflexivity|]. split; [reflexivity|].
    intros Hs. split; [|lia].
    intros k j. simpl. rewrite lookup_insert. case_decide.
    + intros [= <-]. lia.
    + intros Hk. apply rebound_lookup_Some in Hk.
      specialize (Hs _ _ Hk). lia.
Qed.

Lemma call_sound (st : state) (args : list value) (kw : kwargs) :
  sound st -> sound (call ctor st args kw).1 /\ born st <= born (call ctor st args kw).1.
Proof.
  intros Hs. unfold call.
  destruct (cache st !! cache_key args kw) as [j|] eqn:E; simpl.
  - split; [|lia]. intros k v Hk. simpl in Hk.
    apply rebound_lookup_Some in Hk. exact (Hs _ _ Hk).
  - destruct (ctor args kw); simpl; [|split; [exact Hs | lia]].
    split; [|lia]. intros k j. simpl. rewrite lookup_insert. case_decide.
    + intros [= <-]. lia.
    + intros Hk. apply rebound_lookup_Some in Hk.
      specialize (Hs _ _ Hk). lia.
Qed.

Lemma step_sound (st st' : state) :
  step ctor st st' -> sound st -> sound st' /\ born st <= born st'.
Proof.
  intros Hstep Hs. destruct Hstep; simpl.
  - split; [exact Hs | lia].
  - split; [exact Hs | lia].
  - split; [|lia]. intros k j. simpl.
    rewrite map_lookup_filter_Some. intros [Hk _]. exact (Hs _ _ Hk).
  - apply call_sound. exact Hs.
  - split; [exact Hs | lia].
Qed.

(** an entry whose instance stays held outlives every step *)
Lemma keeps_entry (i : nat) (k : string) (st st' : state) :
  keeps ctor i st st' ->
  cache st !! k = Some i /\ i ∈ strong st ->
  cache st' !! k = Some i /\ i ∈ strong st'.
Proof.
  intros [Hstep Hkeep] [Hk Hi]. split; [|auto].
  destruct Hstep; simpl; try exact Hk.
  - apply map_lookup_filter_Some. split; [exact Hk|]. simpl.
    intros ->. contradiction.
  - unfold call. destruct (cache st !! cache_key args kw) as [j|] eqn:E; simpl.
    + apply rebound_lookup_keep; [exact Hk | right; left; exact Hi].
    + destruct (ctor args kw); simpl; [|exact Hk].
      rewrite lookup_insert_ne by congruence.
      apply rebound_lookup_keep; [exact Hk | right; left; exact Hi].
Qed.

Lemma keeps_path (i : nat) (k : string) (st st' : state) :
  rtc (keeps ctor i) st st' ->
  sound st -> cache st !! k = Some i -> i ∈ strong st ->
  sound st' /\ born st <= born st' /\ cache st' !! k = Some i /\ i ∈ strong st'.
Proof.
  induction 1 as [st|st st1 st2 H1 _ IH]; intros Hs Hk Hi.
  - repeat split; auto.
  - destruct (keeps_entry _ _ _ _ H1 (conj Hk Hi)) as [Hk1 Hi1].
    destruct (step_sound _ _ (proj1 H1) Hs) as [Hs1 Hb1].
    destruct (IH Hs1 Hk1 Hi1) as (? & ? & ? & ?).
    repeat split; auto. lia.
Qed.

End Call.

(** C4: two construction calls with the same key return the same instance
    as long as the first one is still held, whatever happens in between
    (other calls, other instances given up or reclaimed), and no constructor
    runs for the second; the entry of the key stays, while binding
    [Singleton.__instance] may drop the entries of the unheld instance the
    attribute held before.  A call whose key is not among the cached ones
    runs the constructor once and returns an instance that is new: it
    differs from the first and from every cached one, and is cached under
    its key, beside the entry of the first. *)
Theorem same_key_same_instance (ctor : list value -> kwargs -> bool)
    (st st1 st2 : state) (args : list value) (kw : kwargs) (i : nat) :
  sound st ->
  call ctor st args kw = (st1, Returned i) ->
  rtc (keeps ctor i) (held i st1) st2 ->
  (forall args' kw',
      cache_key args' kw' = cache_key args kw ->
      call ctor st2 args' kw'
      = ({| cache := rebound st2 i; instance := Some i;
            strong := strong st2; born := born st2 |}, Returned i)
      /\ rebound st2 i !! cache_key args kw = Some i)
  /\ (forall args' kw',
        cache st2 !! cache_key args' kw' = None -> ctor args' kw' = true ->
        exists st3 j,
          call ctor st2 args' kw' = (st3, Returned j)
          /\ j <> i
          /\ (forall k, cache st2 !! k <> Some j)
          /\ born st3 = S (born st2)
          /\ cache st3 !! cache_key args' kw' = Some j
          /\ cache st3 !! cache_key args kw = Some i).
Proof.
  intros Hs Hcall Hpath.
  destruct (call_returned _ _ _ _ _ _ Hcall) as (Hk & _ & Hs1).
  pose proof (Hs1 Hs) as [Hsound1 Hlt].
  assert (sound (held i st1)) as Hsh by exact Hsound1.
  assert (i ∈ strong (held i st1)) as Hin
    by (apply elem_of_union_l, elem_of_singleton; reflexivity).
  destruct (keeps_path ctor i _ _ _ Hpath Hsh Hk Hin) as (Hs2 & Hb & Hk2 & Hi2).
  simpl in Hb. split.
  - intros args' kw' Hkey. split.
    + apply call_hit. rewrite Hkey. exact Hk2.
    + apply rebound_lookup_keep; [exact Hk2 | left; reflexivity].
  - intros args' kw' Hnone Hctor.
    eexists _, (born st2). split; [apply call_miss; assumption|]. simpl.
    split; [lia|]. split.
    { intros k Hkj. specialize (Hs2 _ _ Hkj). lia. }
    split; [reflexivity|]. split; [apply lookup_insert_eq|].
    rewrite lookup_insert_ne by congruence.
    apply rebound_lookup_keep; [exact Hk2 | right; left; exact Hi2].
Qed.

Lemma same_key_same_instance_witness :
  let ctor := fun (_ : list value) (_ : kwargs) => true in
  let st2 := held 0 (call ctor initial [VStr "DEBUG"] []).1 in
  (forall args' kw',
      cache_key args' kw' = cache_key [VStr "DEBUG"] [] ->
      call ctor st2 args' kw'
      = ({| cache := rebound st2 0; instance := Some 0;
            strong := strong st2; born := born st2 |}, Returned 0)
      /\ rebound st2 0 !! cache_key [VStr "DEBUG"] [] = Some 0)
  /\ (forall args' kw',
        cache st2 !! cache_key args' kw' = None -> ctor args' kw' = true ->
        exists st3 j,
          call ctor st2 args' kw' = (st3, Returned j)
          /\ j <> 0
          /\ (forall k, cache st2 !! k <> Some j)
          /\ born st3 = S (born st2)
          /\ cache st3 !! cache_key args' kw' = Some j
          /\ cache st3 !! cache_key [VStr "DEBUG"] [] = Some 0).
Proof.
  intros ctor st2.
  apply (same_key_same_instance ctor initial
           (call ctor initial [VStr "DEBUG"] []).1 st2 [VStr "DEBUG"] [] 0).
  - intros k j. simpl. rewrite lookup_empty. discriminate.
  - reflexivity.
  - apply rtc_refl.
Defined.

(** on a class that has cached nothing yet, two calls with different keys
    give two different instances *)
Lemma fresh_class_two_keys (args args' : list value) (kw kw' : kwargs) :
  cache_key args kw <> cache_key args' kw' ->
  let ctor := fun (_ : list value) (_ : kwargs) => true in
  (call ctor initial args kw).2 = Returned 0
  /\ (call ctor (call ctor initial args kw).1 args' kw').2 = Returned 1.
Proof.
  intros Hne ctor.
  rewrite (call_miss ctor initial args kw) by (apply lookup_empty || reflexivity).
  split; [reflexivity|]. cbn [fst].
  rewrite call_miss; [reflexivity| |reflexivity].
  cbn [cache]. rewrite lookup_insert_ne by exact Hne. apply lookup_empty.
Qed.

(** C5 (the code departs from the claim).  Claim: the key is the text of the
    positional arguments followed by the text of the keyword arguments.  The
    positional part is so; of the keyword arguments only the names enter the
    key, their values never do: [level="DEBUG"] and [level="INFO"] both give
    the key "level", where the claim gives "DEBUG" and "INFO". *)
Theorem keyword_values_never_reach_key :
  (forall args kw,
      cache_key args kw = join (map py_str args) +:+ join (map fst kw))
  /\ (forall args, cache_key args [] = spec_key args [])
  /\ cache_key [] [("level", VStr "DEBUG")] = "level"
  /\ spec_key [] [("level", VStr "DEBUG")] = "DEBUG"
  /\ cache_key [] [("level", VStr "DEBUG")]
     = cache_key [] [("level", VStr "INFO")]
  /\ spec_key [] [("level", VStr "DEBUG")]
     <> spec_key [] [("level", VStr "INFO")].
Proof.
  split; [exact cache_key_unfold|].
  split; [intros args; rewrite cache_key_unfold; reflexivity|].
  split; [reflexivity|]. split; [reflexivity|]. split; [reflexivity|].
  discriminate.
Qed.

(** C2 (the code departs from the claim).  Claim: racing first callers with
    one key run the constructor exactly once and all get the one instance,
    the check and the construction being under one lock.  The membership
    test of line 45 is made before the lock is taken: thread 1 passes it
    while thread 0 holds the lock, both construct, and the two callers
    return different instances. *)
Theorem racing_callers_construct_twice :
  let calls := [([VStr "DEBUG"], []); ([VStr "DEBUG"], [])] in
  let schedule := [0; 0; 1; 0; 0; 0; 0; 1; 1; 1; 1; 1] in
  (fun sh => (results sh, s_born sh, s_lock sh))
    <$> run (fun _ _ => true) schedule (spawn calls)
  = Some ([Done (Some 0); Done (Some 1)], 2, None).
Proof. vm_compute. reflexivity. Qed.

(** left alone, the first caller constructs and the second fetches *)
Lemma one_after_the_other :
  let calls := [([VStr "DEBUG"], []); ([VStr "DEBUG"], [])] in
  let schedule := [0; 0; 0; 0; 0; 0; 1; 1; 1] in
  (fun sh => (results sh, s_born sh))
    <$> run (fun _ _ => true) schedule (spawn calls)
  = Some ([Done (Some 0); Done (Some 0)], 1).
Proof. vm_compute. reflexivity. Qed.

End SingleFacts.

(* ===================================================================== *)
(** ** Facts about the class instrumentor *)
(* ===================================================================== *)

Module InstrumentFacts.
Import PyStr Instrument.

Lemma split_char_head (sep : ascii) (s : string) :
  is_Some (head (split_char sep s)).
Proof.
  induction s as [|c s IH]; simpl; [eauto|].
  destruct (Ascii.eqb c sep); [eauto|].
  destruct (split_char sep s); simpl; eauto.
Qed.

Lemma assoc_middle (pre post : list (string * nat)) (n : string) (r : nat) :
  n ∉ pre.*1 -> assoc (pre ++ (n, r) :: post) n = Some r.
Proof.
  induction pre as [|[n' r'] pre IH]; simpl; intros Hn.
  - rewrite String.eqb_refl. reflexivity.
  - apply not_elem_of_cons in Hn as [Hne Hn].
    destruct (String.eqb n' n) eqn:E; [|auto].
    apply String.eqb_eq in E. congruence.
Qed.

Lemma rebind_middle (pre post : list (string * nat)) (n : string) (r r' : nat) :
  n ∉ pre.*1 -> rebind (pre ++ (n, r) :: post) n r' = pre ++ (n, r') :: post.
Proof.
  induction pre as [|[n0 r0] pre IH]; simpl; intros Hn.
  - rewrite String.eqb_refl. reflexivity.
  - apply not_elem_of_cons in Hn as [Hne Hn].
    destruct (String.eqb n0 n) eqn:E.
    + apply String.eqb_eq in E. congruence.
    + f_equal. auto.
Qed.

Lemma getmembers_unfold (h : list obj) (l : list (string * nat)) :
  getmembers {| heap := h; attrs := l |} = filter (routine_in h) l.
Proof. reflexivity. Qed.

(** growing the heap leaves the listing of the old attributes as it was *)
Lemma filter_routine_prefix (h h1 : list obj) (l : list (string * nat)) :
  h `prefix_of` h1 -> Forall (fun m => m.2 < length h) l ->
  filter (routine_in h1) l = filter (routine_in h) l.
Proof.
  intros Hp Hl. induction Hl as [|m l Hm _ IH]; [reflexivity|].
  apply lookup_lt_is_Some in Hm as [o Ho].
  pose proof (prefix_lookup_Some _ _ _ _ Ho Hp) as Ho1.
  assert (routine_in h1 m <-> routine_in h m) as Hiff.
  { unfold routine_in. rewrite Ho, Ho1. reflexivity. }
  rewrite !filter_cons, IH.
  destruct (decide (routine_in h1 m)), (decide (routine_in h m));
    tauto || reflexivity.
Qed.

Lemma settled_prefix (cfg : config) (h h1 : list obj) (l : list (string * nat)) :
  h `prefix_of` h1 -> Forall (fun m => m.2 < length h) l ->
  settled cfg h l -> settled cfg h1 l.
Proof.
  intros Hp Hl Hs n r o cn Hin Ho. rewrite Forall_forall in Hl.
  specialize (Hl _ Hin). simpl in Hl.
  apply lookup_lt_is_Some in Hl as [o' Ho'].
  pose proof (prefix_lookup_Some _ _ _ _ Ho' Hp) as Ho1.
  assert (o = o') as -> by congruence.
  apply (Hs n r o' cn Hin Ho').
Qed.

Lemma named_heap_snoc (h : list obj) (o : obj) :
  named_heap h -> (is_routine o = true -> is_Some (o_qualname o)) ->
  named_heap (h ++ [o]).
Proof.
  intros Hh Ho r o' Hl. apply lookup_app_Some in Hl as [Hl|[_ Hl]].
  - eapply Hh. exact Hl.
  - apply list_lookup_singleton_Some in Hl as [_ <-]. exact Ho.
Qed.

(** One turn of the loop on the attribute [(n, r)], bound once: either
    nothing changes, and then the member needs no mark or has it; or a
    marked wrapper is put at the end of the heap and bound to [n]. *)
Lemma log_member_step (cfg : config) (h : list obj)
    (pre todo : list (string * nat)) (n : string) (r : nat) (o : obj) :
  n ∉ pre.*1 -> h !! r = Some o -> is_routine o = true -> named_heap h ->
  exists h1 r1,
    log_member cfg {| heap := h; attrs := pre ++ (n, r) :: todo |} (n, r)
    = Some {| heap := h1; attrs := pre ++ (n, r1) :: todo |}
    /\ h `prefix_of` h1
    /\ r1 < length h1
    /\ named_heap h1
    /\ settled cfg h1 [(n, r1)]
    /\ (o_log o = Some true -> r1 = r).
Proof.
  intros Hn Ho Hr Hnamed.
  destruct (Hnamed _ _ Ho Hr) as [q Hq].
  destruct (split_char_head "."%char q) as [cn Hcn].
  assert (class_name o = Some cn) as Hclass.
  { unfold class_name. rewrite Hq. exact Hcn. }
  assert (r < length h) as Hlt by (eapply lookup_lt_Some; exact Ho).
  assert (exists h1 r1, Some {| heap := h; attrs := pre ++ (n, r) :: todo |}
            = Some {| heap := h1; attrs := pre ++ (n, r1) :: todo |}
            /\ h `prefix_of` h1 /\ r1 < length h1 /\ named_heap h1
            /\ (h1 !! r1 = Some o) /\ (o_log o = Some true -> r1 = r)) as Hsame.
  { exists h, r. repeat split; auto. }
  unfold log_member, deref, getattr. simpl heap. simpl attrs.
  rewrite Ho. simpl. rewrite Hclass. simpl.
  destruct (startswith n "_") eqn:Hpriv.
  { destruct Hsame as (h1 & r1 & E & ? & ? & ? & ? & ?).
    exists h1, r1. repeat split; auto.
    intros n' r' o' cn' Hin. apply list_elem_of_singleton in Hin as [= -> ->].
    congruence. }
  destruct (selected cfg cn) eqn:Hsel.
  2:{ destruct Hsame as (h1 & r1 & E & ? & ? & ? & Ho1 & ?).
      exists h1, r1. repeat split; auto.
      intros n' r' o' cn' Hin. apply list_elem_of_singleton in Hin as [= -> ->].
      intros Ho' _ Hc'. rewrite Ho1 in Ho'. injection Ho' as <-. congruence. }
  rewrite (assoc_middle _ _ _ _ Hn). simpl. rewrite Ho. simpl.
  assert (wrap_and_mark {| heap := h; attrs := pre ++ (n, r) :: todo |} n r
          = Some {| heap := h ++ [marked (traced o r)];
                    attrs := pre ++ (n, length h) :: todo |}) as Hwrap.
  { unfold wrap_and_mark, deref, getattr. simpl heap. simpl attrs.
    rewrite Ho. simpl. rewrite (rebind_middle _ _ _ _ _ Hn).
    rewrite (assoc_middle _ _ _ _ Hn). simpl.
    rewrite lookup_app_r by lia. rewrite Nat.sub_diag. simpl.
    f_equal. f_equal.
    rewrite insert_app_r_alt by lia. rewrite Nat.sub_diag. reflexivity. }
  assert (exists h1 r1,
            Some {| heap := h ++ [marked (traced o r)];
                    attrs := pre ++ (n, length h) :: todo |}
            = Some {| heap := h1; attrs := pre ++ (n, r1) :: todo |}
            /\ h `prefix_of` h1 /\ r1 < length h1 /\ named_heap h1
            /\ settled cfg h1 [(n, r1)]) as Hnew.
  { exists (h ++ [marked (traced o r)]), (length h).
    split; [reflexivity|]. split; [apply prefix_app_r; reflexivity|].
    split; [rewrite length_app; simpl; lia|]. split.
    - apply named_heap_snoc; [exact Hnamed|]. intros _. simpl. eauto.
    - intros n' r' o' cn' Hin. apply list_elem_of_singleton in Hin as [= -> ->].
      rewrite lookup_app_r by lia. rewrite Nat.sub_diag. simpl.
      intros [= <-]. reflexivity. }
  destruct (o_log o) as [[|]|] eqn:Hlog; simpl.
  - destruct Hsame as (h1 & r1 & E & ? & ? & ? & Ho1 & ?).
    exists h1, r1. repeat split; auto.
    intros n' r' o' cn' Hin. apply list_elem_of_singleton in Hin as [= -> ->].
    intros Ho' _ _ _ _. rewrite Ho1 in Ho'. injection Ho' as <-. exact Hlog.
  - rewrite Hwrap. destruct Hnew as (h1 & r1 & E & ? & ? & ? & ?).
    exists h1, r1. repeat split; auto. discriminate.
  - rewrite Hwrap. destruct Hnew as (h1 & r1 & E & ? & ? & ? & ?).
    exists h1, r1. repeat split; auto. discriminate.
Qed.

Lemma settled_app (cfg : config) (h : list obj) (l1 l2 : list (string * nat)) :
  settled cfg h l1 -> settled cfg h l2 -> settled cfg h (l1 ++ l2).
Proof.
  intros H1 H2 n r o cn Hin. apply elem_of_app in Hin as [Hin|Hin].
  - apply (H1 n r o cn Hin).
  - apply (H2 n r o cn Hin).
Qed.

(** The loop of [log] over the attributes [todo] that are still to come,
    [pre] being those already passed. *)
Lemma log_members_settle (cfg : config) (todo : list (string * nat)) :
  forall (pre : list (string * nat)) (h : list obj),
    NoDup (pre ++ todo).*1 ->
    Forall (fun m => m.2 < length h) (pre ++ todo) ->
    named_heap h ->
    settled cfg h pre ->
    exists h' todo',
      log_members cfg (filter (routine_in h) todo)
        {| heap := h; attrs := pre ++ todo |}
      = Some {| heap := h'; attrs := pre ++ todo' |}
      /\ todo'.*1 = todo.*1
      /\ Forall (fun m => m.2 < length h') (pre ++ todo')
      /\ named_heap h'
      /\ settled cfg h' (pre ++ todo')
      /\ h `prefix_of` h'
      /\ (forall n r o, (n, r) ∈ todo -> h !! r = Some o ->
                        o_log o = Some true -> (n, r) ∈ todo').
Proof.
  induction todo as [|[n r] todo IH]; intros pre h Hnd Hlt Hnamed Hset.
  - exists h, []. rewrite app_nil_r in *. repeat split; auto.
  - assert (n ∉ pre.*1) as Hn.
    { rewrite fmap_app in Hnd. apply NoDup_app in Hnd as (_ & Hd & _).
      intros Hin. apply (Hd _ Hin). simpl. left. }
    pose proof Hlt as Hlt0.
    apply Forall_app in Hlt as [Hlt_pre Hlt_todo].
    apply Forall_cons in Hlt_todo as [Hr Hlt_todo]. simpl in Hr.
    destruct (lookup_lt_is_Some_2 _ _ Hr) as [o Ho].
    assert (forall h1 r1,
              h `prefix_of` h1 -> r1 < length h1 -> named_heap h1 ->
              settled cfg h1 [(n, r1)] ->
              (o_log o = Some true -> r1 = r) ->
              exists h' todo',
                log_members cfg (filter (routine_in h) todo)
                  {| heap := h1; attrs := pre ++ (n, r1) :: todo |}
                = Some {| heap := h'; attrs := pre ++ todo' |}
                /\ todo'.*1 = ((n, r) :: todo).*1
                /\ Forall (fun m => m.2 < length h') (pre ++ todo')
                /\ named_heap h'
                /\ settled cfg h' (pre ++ todo')
                /\ h `prefix_of` h'
                /\ (forall n0 r0 o0, (n0, r0) ∈ (n, r) :: todo ->
                       h !! r0 = Some o0 -> o_log o0 = Some true ->
                       (n0, r0) ∈ todo')) as Hcont.
    { intros h1 r1 Hp Hr1 Hnamed1 Hset1 Hkeep.
      assert (length h <= length h1) as Hlen by (apply prefix_length; exact Hp).
      destruct (IH (pre ++ [(n, r1)]) h1) as (h' & todo' & E & Hnames & Hlt' & Hn' & Hs' & Hp' & Hk').
      - rewrite <- app_assoc. simpl. rewrite fmap_app in Hnd |- *. exact Hnd.
      - rewrite <- app_assoc. simpl. apply Forall_app. split.
        + eapply Forall_impl; [exact Hlt_pre|]. simpl. intros; lia.
        + apply Forall_cons. split; [exact Hr1|].
          eapply Forall_impl; [exact Hlt_todo|]. simpl. intros; lia.
      - exact Hnamed1.
      - apply settled_app; [|exact Hset1].
        apply (settled_prefix cfg h h1); assumption.
      - exists h', ((n, r1) :: todo').
        rewrite <- !app_assoc in *. simpl in *.
        rewrite (filter_routine_prefix h h1) in E by assumption.
        split; [exact E|]. split; [f_equal; exact Hnames|].
        split; [exact Hlt'|]. split; [exact Hn'|]. split; [exact Hs'|].
        split; [etrans; eassumption|].
        intros n0 r0 o0 Hin Ho0 Hlog0.
        apply elem_of_cons in Hin as [[= -> ->]|Hin].
        + assert (o0 = o) as -> by congruence.
          rewrite (Hkeep Hlog0). left.
        + right. apply (Hk' n0 r0 o0 Hin); [|exact Hlog0].
          eapply prefix_lookup_Some; eassumption. }
    destruct (is_routine o) eqn:Hrout.
    + rewrite filter_cons_True by (unfold routine_in; simpl; rewrite Ho; simpl; congruence).
      cbn [log_members].
      destruct (log_member_step cfg h pre todo n r o Hn Ho Hrout Hnamed)
        as (h1 & r1 & E & Hp & Hr1 & Hnamed1 & Hset1 & Hkeep).
      rewrite E. apply Hcont; assumption.
    + rewrite filter_cons_False by (unfold routine_in; simpl; rewrite Ho; simpl; congruence).
      apply Hcont; auto.
      intros n' r' o' cn' Hin. apply list_elem_of_singleton in Hin as [= -> ->].
      congruence.
Qed.

(** once every member is settled a pass of [log] changes nothing *)
Lemma log_settled_fixed (cfg : config) (w : world) :
  wf w -> named w -> settled cfg (heap w) (attrs w) -> log cfg w = Some w.
Proof.
  intros [Hnd Hlt] Hnamed Hset. unfold log.
  assert (forall m, m ∈ getmembers w -> log_member cfg w m = Some w) as Hfix.
  { intros [n r] Hin. unfold getmembers in Hin.
    apply list_elem_of_filter in Hin as [Hrout Hin].
    unfold routine_in in Hrout. simpl in Hrout.
    destruct (heap w !! r) as [o|] eqn:Ho; [|discriminate].
    simpl in Hrout. injection Hrout as Hrout.
    destruct (Hnamed _ _ Ho Hrout) as [q Hq].
    destruct (split_char_head "."%char q) as [cn Hcn].
    assert (class_name o = Some cn) as Hclass.
    { unfold class_name. rewrite Hq. exact Hcn. }
    apply list_elem_of_split in Hin as (pre & post & Hattrs).
    assert (n ∉ pre.*1) as Hn.
    { rewrite Hattrs, fmap_app in Hnd. apply NoDup_app in Hnd as (_ & Hd & _).
      intros Hin. apply (Hd _ Hin). simpl. left. }
    unfold log_member, deref, getattr. rewrite Ho. simpl. rewrite Hclass. simpl.
    destruct (startswith n "_") eqn:Hpriv; [reflexivity|].
    destruct (selected cfg cn) eqn:Hsel; [|reflexivity].
    rewrite Hattrs, (assoc_middle _ _ _ _ Hn). simpl. rewrite Ho. simpl.
    rewrite (Hset n r o cn); auto.
    rewrite Hattrs. apply elem_of_app. right. left. }
  induction (getmembers w) as [|m ms IH]; [reflexivity|].
  cbn [log_members]. rewrite Hfix by left. apply IH.
  intros m' Hm'. apply Hfix. right. exact Hm'.
Qed.

(** C3: applying [log] to a class a second time changes no attribute and
    creates no object: the class and the heap after two passes are those
    after one.  A member that already carries a true mark keeps its binding,
    and after a pass every member that [log] would wrap carries the mark. *)
Theorem log_twice_is_log_once (cfg : config) (w : world) :
  wf w -> named w ->
  exists w1,
    log cfg w = Some w1
    /\ log cfg w1 = Some w1
    /\ settled cfg (heap w1) (attrs w1)
    /\ (attrs w1).*1 = (attrs w).*1
    /\ (forall n r o, (n, r) ∈ attrs w -> deref w r = Some o ->
                      o_log o = Some true -> (n, r) ∈ attrs w1).
Proof.
  intros [Hnd Hlt] Hnamed. destruct w as [h l]. simpl in *.
  destruct (log_members_settle cfg l [] h) as
    (h' & l' & E & Hnames & Hlt' & Hnamed' & Hset' & _ & Hkeep); simpl; auto.
  { intros n r o cn Hin. apply elem_of_nil in Hin. contradiction. }
  simpl in *. exists {| heap := h'; attrs := l' |}.
  split; [exact E|]. split.
  - apply log_settled_fixed; [split; simpl|exact Hnamed'|exact Hset'].
    + rewrite Hnames. exact Hnd.
    + exact Hlt'.
  - split; [exact Hset'|]. split; [exact Hnames|]. exact Hkeep.
Qed.

Lemma log_twice_is_log_once_witness :
  exists w1,
    log by_suffix widget = Some w1
    /\ log by_suffix w1 = Some w1
    /\ settled by_suffix (heap w1) (attrs w1)
    /\ (attrs w1).*1 = (attrs widget).*1
    /\ (forall n r o, (n, r) ∈ attrs widget -> deref widget r = Some o ->
                      o_log o = Some true -> (n, r) ∈ attrs w1).
Proof.
  apply log_twice_is_log_once.
  - split.
    + apply (bool_decide_unpack _). vm_compute. exact I.
    + apply (bool_decide_unpack _). vm_compute. exact I.
  - intros r o Hl Hr. unfold widget in Hl. simpl in Hl.
    destruct r as [|[|[|[|r]]]]; simpl in Hl; try discriminate;
      injection Hl as <-; simpl in *; eauto; discriminate.
Defined.

(** the sample class after one pass: [click] and [make] are wrapped *)
Lemma widget_logged :
  attrs <$> log by_suffix widget
  = Some [("_hide", 0); ("click", 4); ("make", 5); ("title", 3)].
Proof. reflexivity. Qed.

End InstrumentFacts.

(* ===================================================================== *)
(** ** Facts about the logging facade *)
(* ===================================================================== *)

Module FacadeFacts.
Import PyStr Facade.

Lemma ensure_sink_frames (e : env) :
  has_getframe (ensure_sink e) = has_getframe e
  /\ callers (ensure_sink e) = callers e.
Proof.
  unfold ensure_sink.
  destruct (Nat.eqb (handlers e) 0), (logger_cached e); split; reflexivity.
Qed.

Lemma frame_name_ensure_sink (e : env) (depth : nat) :
  frame_name (ensure_sink e) depth = frame_name e depth.
Proof.
  unfold frame_name. destruct (ensure_sink_frames e) as [-> ->]. reflexivity.
Qed.

(** C10, refuted as stated: called with no frame below it (as a callback
    run by the interpreter itself) and with the default prefixing, [debug]
    fails on the frame lookup of line 318, which no handler covers; nothing
    is emitted. *)
Lemma debug_without_caller_raises :
  (debug (mkEnv true [] 3 true) "x" true).2 = Raised ValueError
  /\ forall lvl msg,
       (debug (mkEnv true [] 3 true) "x" true).2 <> Emitted lvl msg.
Proof. split; [reflexivity | intros lvl msg; discriminate]. Qed.

(** C10, amended: when the frame of the immediate caller can be read, or no
    prefix is asked for, [debug] emits its message at informational severity
    exactly when the caller of the caller is named [test_...]; otherwise,
    and when there is no such frame, at debug severity. *)
Theorem debug_level_follows_grandcaller (e : env) (message : string)
    (auteadd : bool) :
  has_getframe e = true ->
  auteadd = false \/ callers e <> [] ->
  (debug e message auteadd).2
  = Emitted (if called_from_test e then INFO else DEBUG)
      (if auteadd
       then "[" +:+ default "" (head (callers e)) +:+ "]: " +:+ message
       else message).
Proof.
  intros Hframe Hcaller. unfold debug, called_from_test.
  rewrite !frame_name_ensure_sink. unfold frame_name. rewrite Hframe.
  destruct auteadd.
  - destruct Hcaller as [Hf|Hne]; [discriminate|].
    destruct (callers e) as [|c1 [|c2 rest]]; [congruence| |]; simpl.
    + reflexivity.
    + destruct (startswith c2 "test_"); reflexivity.
  - destruct (callers e) as [|c1 [|c2 rest]]; simpl; try reflexivity.
    destruct (startswith c2 "test_"); reflexivity.
Qed.

Lemma debug_level_follows_grandcaller_witness :
  (debug (mkEnv true ["helper"; "test_foo"; "<module>"] 0 false) "x" true).2
  = Emitted INFO "[helper]: x".
Proof.
  apply (debug_level_follows_grandcaller
           (mkEnv true ["helper"; "test_foo"; "<module>"] 0 false) "x" true).
  - reflexivity.
  - right. discriminate.
Defined.

(** a chain without a test function stays at debug severity; the first call
    of the process installs the handlers *)
Lemma debug_from_plain_chain :
  debug (mkEnv true ["helper"; "main"; "<module>"] 0 false) "x" true
  = (mkEnv true ["helper"; "main"; "<module>"] 3 true,
     Emitted DEBUG "[helper]: x").
Proof. reflexivity. Qed.

End FacadeFacts.

(* ===================================================================== *)
(** ** Further properties of the text operations and of the tracer *)
(* ===================================================================== *)

Module TextProps.
Import PyStr.

Lemma append_cons (c : ascii) (s t : string) :
  String c s +:+ t = String c (s +:+ t).
Proof. reflexivity. Qed.

Lemma append_empty_r (s : string) : s +:+ "" = s.
Proof.
  induction s as [|c s IH]; [reflexivity|]. rewrite append_cons, IH. reflexivity.
Qed.

Lemma append_assoc (a b c : string) : (a +:+ b) +:+ c = a +:+ (b +:+ c).
Proof.
  induction a as [|x a IH]; [reflexivity|]. rewrite !append_cons, IH. reflexivity.
Qed.

Lemma occurs_append (c : ascii) (a b : string) :
  occurs c (a +:+ b) = occurs c a || occurs c b.
Proof.
  induction a as [|x a IH]; [reflexivity|].
  rewrite append_cons. simpl. rewrite IH. apply orb_assoc.
Qed.

Lemma occurs_lstrip (c : ascii) (f : ascii -> bool) (s : string) :
  occurs c s = false -> occurs c (lstrip_by f s) = false.
Proof.
  induction s as [|d s IH]; intros H; [reflexivity|].
  simpl lstrip_by. destruct (f d); [|exact H].
  apply IH. simpl in H. apply orb_false_elim in H. tauto.
Qed.

Lemma occurs_rstrip (c : ascii) (f : ascii -> bool) (s : string) :
  occurs c s = false -> occurs c (rstrip_by f s) = false.
Proof.
  induction s as [|d s IH]; intros H; [reflexivity|].
  simpl in H. apply orb_false_elim in H as [Hd Hs]. specialize (IH Hs).
  simpl rstrip_by. destruct (rstrip_by f s) as [|e r].
  - destruct (f d); simpl; [reflexivity|]. rewrite Hd. reflexivity.
  - change (occurs c (String d (String e r))) with (Ascii.eqb d c || occurs c (String e r)).
    rewrite Hd, IH. reflexivity.
Qed.

Lemma occurs_rev (c : ascii) (s : string) :
  occurs c (String.rev s) = occurs c s.
Proof.
  unfold String.rev.
  assert (G : forall a b, occurs c (String.rev_app a b) = occurs c a || occurs c b).
  { induction a as [|d a IH]; intros b; [reflexivity|].
    simpl. rewrite IH. simpl. destruct (Ascii.eqb d c), (occurs c a); reflexivity. }
  rewrite G. apply orb_false_r.
Qed.

Lemma occurs_lstrip_from (c : ascii) (ahead : string -> nat) (skip : nat)
    (s : string) :
  occurs c s = false -> occurs c (lstrip_from ahead skip s) = false.
Proof.
  revert skip. induction s as [|d s IH]; intros skip H; [reflexivity|].
  assert (Hs : occurs c s = false).
  { simpl in H. apply orb_false_elim in H. tauto. }
  simpl lstrip_from. destruct skip as [|k]; [|apply IH; exact Hs].
  destruct (ahead (String d s)) as [|k]; [exact H | apply IH; exact Hs].
Qed.

(** [strip] on a title between an ideographic space and a no-break space, and
    on one that holds white space inside *)
Lemma strip_unicode :
  strip (bytes [227; 128; 128; 32; 111; 107; 9; 194; 160]) = "ok"
  /\ strip (bytes [32; 97; 226; 128; 131; 98; 10]) = bytes [97; 226; 128; 131; 98]
  /\ strip (bytes [32; 226; 128; 97; 32]) = bytes [226; 128; 97].
Proof. repeat split; reflexivity. Qed.

Lemma occurs_split_char (sep : ascii) (s : string) :
  Forall (fun piece => occurs sep piece = false) (split_char sep s).
Proof.
  induction s as [|d s IH]; simpl.
  - constructor; [reflexivity | constructor].
  - destruct (Ascii.eqb d sep) eqn:E.
    + constructor; [reflexivity | exact IH].
    + destruct (split_char sep s) as [|h t].
      * constructor; [|constructor]. simpl. rewrite E. reflexivity.
      * inversion IH as [|? ? Hh Ht]; subst.
        constructor; [|exact Ht]. simpl. rewrite E, Hh. reflexivity.
Qed.

Lemma occurs_join (c : ascii) (l : list string) :
  Forall (fun piece => occurs c piece = false) l -> occurs c (join l) = false.
Proof.
  unfold join. induction 1 as [|x l Hx Hl IH]; [reflexivity|].
  destruct l as [|y l]; [exact Hx|].
  change (String.concat "" (x :: y :: l)) with (x +:+ "" +:+ String.concat "" (y :: l)).
  rewrite !occurs_append, Hx, IH. reflexivity.
Qed.

End TextProps.

Module TraceProps.
Import PyStr PyVal Trace PyStrFacts TraceFacts TextProps.

(** X1: the title taken from a documentation string is a single line. *)
Theorem headline_single_line (doc : string) :
  occurs LF (headline doc) = false.
Proof.
  unfold headline. apply occurs_join. apply Forall_fmap.
  eapply Forall_impl; [apply (occurs_split_char LF)|].
  intros piece H. simpl. unfold strip.
  rewrite occurs_rev. apply occurs_lstrip_from.
  rewrite occurs_rev. apply occurs_lstrip_from. exact H.
Qed.

Lemma substitute_plain (params_text : kwargs) (title : string) :
  contains "{{" title = false -> substitute title params_text = title.
Proof.
  intros H. unfold substitute.
  induction params_text as [|[p v] l IH]; [reflexivity|].
  cbn [fold_left]. rewrite subst_one_shown.
  rewrite replace_absent; [exact IH|discriminate|].
  apply contains_false_weaken with (a := "{{"); [|exact H].
  intros t Ht. apply prefix_contains.
  apply (prefix_app_l "{{" (p +:+ "}}")). exact Ht.
Qed.

(** X2: a title without an opening double brace is logged as it stands,
    whatever the arguments are. *)
Theorem render_without_placeholder (allure : bool) (represent : value -> string)
    (f : func) (doc : string) (a : list value) (kw : kwargs) :
  contains "{{" (headline doc) = false ->
  render allure represent f doc a kw = headline doc.
Proof. intros H. unfold render. apply substitute_plain. exact H. Qed.

Lemma render_without_placeholder_witness :
  render true allure_represent refresh "Reloads the page"
    [calc; VBool true] [("force", VInt 1)] = headline "Reloads the page".
Proof. apply render_without_placeholder. reflexivity. Defined.

Lemma dict_get_set_is_Some (d : kwargs) (k k' : string) (v : value) :
  is_Some (dict_get (dict_set d k v) k') <-> k' = k \/ is_Some (dict_get d k').
Proof.
  destruct (String.eqb_spec k k') as [->|Hne].
  - rewrite dict_get_set. split; [auto | eauto].
  - rewrite dict_get_set_ne by exact Hne. split; [auto|].
    intros [->|H]; [contradiction | exact H].
Qed.

Lemma bind_one_is_Some (allure : bool) (represent : value -> string)
    (a : list value) (kw : kwargs) (d : kwargs) (index : nat) (p : param)
    (k : string) :
  is_Some (dict_get (bind_one allure represent a kw d index p) k)
  <-> (p_name p <> "self" /\ k = p_name p) \/ is_Some (dict_get d k).
Proof.
  unfold bind_one. destruct (String.eqb_spec (p_name p) "self") as [E|E].
  - split; [auto|]. intros [[H _]|H]; [contradiction | exact H].
  - repeat match goal with
           | |- context [match ?x with _ => _ end] => destruct x
           end;
      rewrite ?dict_get_set_is_Some; tauto.
Qed.

Lemma bind_from_is_Some (allure : bool) (represent : value -> string)
    (a : list value) (kw : kwargs) (ps : list param) (k : string) :
  forall index d,
    is_Some (dict_get (bind_from allure represent a kw index ps d) k)
    <-> (k <> "self" /\ k ∈ map p_name ps) \/ is_Some (dict_get d k).
Proof.
  induction ps as [|p ps IH]; intros index d; simpl.
  - split; [auto|]. intros [[_ H]|H]; [|exact H].
    apply elem_of_nil in H. contradiction.
  - rewrite IH, bind_one_is_Some. rewrite elem_of_cons.
    split.
    + intros [[? ?]|[[? ?]|?]]; subst; auto.
    + intros [[? [?|?]]|?]; subst; auto.
Qed.

(** X3: the names bound for the title are exactly the declared parameters
    other than [self]; a keyword argument that names no parameter, or a
    positional argument beyond the parameters, is never bound. *)
Theorem bound_names_are_declared (allure : bool) (represent : value -> string)
    (f : func) (a : list value) (kw : kwargs) (k : string) :
  is_Some (dict_get (bind allure represent f a kw) k)
  <-> k <> "self" /\ k ∈ map p_name (f_params f).
Proof.
  unfold bind. rewrite bind_from_is_Some. split; [|auto].
  intros [H|[v H]]; [exact H | discriminate].
Qed.

(** X4: [resolve] hands back the argument list itself or the list without
    its first element; it takes the first element away only when that is an
    instance of the class of the callable, the callable is not [__init__],
    and it is a bound method or is taken for a static function. *)
Theorem resolve_drops_at_most_receiver (f : func) (a a' : list value) :
  resolve f a = inr a' ->
  a' = a
  \/ exists x k,
       a = x :: a'
       /\ f_findclass f = Found k
       /\ isinstance x (k_name k) = true
       /\ f_name f <> "__init__"
       /\ (f_ismethod f = true \/ is_static_method k (f_name f) = inr true).
Proof.
  destruct a as [|x rest]; simpl; [intros [= <-]; left; reflexivity|].
  destruct (f_findclass f) as [k| |e] eqn:Hk; try discriminate.
  destruct (isinstance x (k_name k)) eqn:Hi; simpl;
    [|intros [= <-]; left; reflexivity].
  destruct (String.eqb_spec (f_name f) "__init__") as [Hn|Hn]; simpl;
    [intros [= <-]; left; reflexivity|].
  destruct (is_static_method k (f_name f)) as [e|static] eqn:Hs; [discriminate|].
  destruct (f_ismethod f) eqn:Hm; simpl.
  - intros [= <-]. right. exists x, k. repeat split; auto.
  - destruct static; intros [= <-]; [|left; reflexivity].
    right. exists x, k. repeat split; auto.
Qed.

Lemma resolve_drops_at_most_receiver_witness :
  [VInt 2; VInt 3] = [calc; VInt 2; VInt 3]
  \/ exists x k,
       [calc; VInt 2; VInt 3] = x :: [VInt 2; VInt 3]
       /\ f_findclass plus = Found k
       /\ isinstance x (k_name k) = true
       /\ f_name plus <> "__init__"
       /\ (f_ismethod plus = true \/ is_static_method k (f_name plus) = inr true).
Proof. apply (resolve_drops_at_most_receiver plus). reflexivity. Defined.

Lemma static_function_is_static (f : func) (k : klass) :
  static_function f k -> is_static_method k (f_name f) = inr true.
Proof.
  intros (_ & _ & Hpub & _ & m & ps & Hm & Hr & Hp & Hf & Hs & Hhead).
  unfold is_static_method. rewrite Hpub, Hm, Hr, Hp, Hs.
  destruct (map p_name (filter (fun p => is_positional p = true) ps))
    as [|first rest]; [reflexivity|].
  destruct (String.eqb_spec first "self") as [->|_]; [|rewrite Hf; reflexivity].
  simpl in Hhead. congruence.
Qed.

(** X5: for a function that is taken for static, a first argument that is
    an instance of the class is removed before the call (the receiver, when
    the function is reached through an instance; an argument of the caller,
    when it is reached through the class); any other first argument stays. *)
Theorem static_function_loses_instance (f : func) (k : klass) (x : value)
    (rest : list value) :
  static_function f k ->
  resolve f (x :: rest)
  = inr (if isinstance x (k_name k) then rest else x :: rest).
Proof.
  intros Hst. pose proof (static_function_is_static f k Hst) as Hs.
  destruct Hst as (Hk & Hm & _ & Hn & _).
  unfold resolve. rewrite Hk.
  destruct (isinstance x (k_name k)); simpl; [|reflexivity].
  destruct (String.eqb_spec (f_name f) "__init__") as [E|_]; [contradiction|].
  simpl. rewrite Hs, Hm. reflexivity.
Qed.

Lemma static_function_loses_instance_witness :
  resolve plus [calc; VInt 2; VInt 3] = inr [VInt 2; VInt 3].
Proof.
  apply (static_function_loses_instance plus Calc calc [VInt 2; VInt 3]).
  repeat split; try reflexivity; try discriminate.
  exists (routine sig_plus), sig_plus. repeat split; try reflexivity. discriminate.
Defined.

(** X6: the wrapper runs the callable at most once, on the resolved
    positional arguments and the untouched keyword arguments, and then
    returns or raises what the callable does; it runs it exactly when the
    name is private and documented, or is [__init__], or the step-reporting
    library is present, and returns [None] without running it otherwise.  A
    failure while resolving the arguments leaves the wrapper with no log
    line and no call. *)
Theorem wrapped_outcome (allure : bool) (represent : value -> string)
    (fp : func -> list value -> kwargs -> list (string * string))
    (f : func) (a : list value) (kw : kwargs) :
  match resolve f a with
  | inl e => wrapped allure represent fp f a kw = ([], Raise e)
  | inr a' =>
      invocations (wrapped allure represent fp f a kw).1
      = (if runs allure f then [(a', kw)] else [])
      /\ (wrapped allure represent fp f a kw).2
         = (if runs allure f then f_body f a' kw else Return VNone)
  end.
Proof.
  unfold wrapped, runs. destruct (resolve f a) as [e|a']; [reflexivity|].
  destruct (has_doc f) as [doc|].
  - destruct (startswith (f_name f) "_") eqn:Hp; simpl; [split; reflexivity|].
    unfold announce. rewrite (public_not_init _ Hp). simpl.
    destruct allure; split; reflexivity.
  - unfold announce. simpl.
    destruct (String.eqb (f_name f) "__init__"); simpl; [split; reflexivity|].
    destruct allure; split; reflexivity.
Qed.

(** X7: unless it returns early for a documented private name, the
    wrapper hands exactly one line to the logger, "[name]: title", and does so
    before anything else; the title of an undocumented callable is its name. *)
Theorem wrapped_logs_once (allure : bool) (represent : value -> string)
    (fp : func -> list value -> kwargs -> list (string * string))
    (f : func) (a : list value) (kw : kwargs) :
  match resolve f a with
  | inl _ => logged (wrapped allure represent fp f a kw).1 = []
  | inr a' =>
      let line := "[" +:+ f_name f +:+ "]: "
                  +:+ title_of allure represent f a' kw in
      if silent f
      then logged (wrapped allure represent fp f a kw).1 = []
      else logged (wrapped allure represent fp f a kw).1 = [line]
           /\ head (wrapped allure represent fp f a kw).1 = Some (Log line)
  end.
Proof.
  unfold wrapped, silent, title_of. destruct (resolve f a) as [e|a']; [reflexivity|].
  destruct (has_doc f) as [doc|].
  - destruct (startswith (f_name f) "_"); simpl; [reflexivity|].
    unfold announce.
    destruct (negb (String.eqb (f_name f) "__init__")), allure; split; reflexivity.
  - simpl. unfold announce.
    destruct (negb (String.eqb (f_name f) "__init__")), allure; split; reflexivity.
Qed.

(** X8: a traced function that belongs to no class fails with [TypeError]
    as soon as it is given a positional argument, before any log line and
    without being run; with keyword arguments only it is traced as usual. *)
Theorem classless_function_rejects_positional (allure : bool)
    (represent : value -> string)
    (fp : func -> list value -> kwargs -> list (string * string))
    (f : func) (x : value) (rest : list value) (kw : kwargs) :
  f_findclass f = FoundNone ->
  wrapped allure represent fp f (x :: rest) kw = ([], Raise TypeError)
  /\ resolve f [] = inr [].
Proof.
  intros H. unfold wrapped, resolve. rewrite H. split; reflexivity.
Qed.

Lemma classless_function_rejects_positional_witness :
  wrapped true allure_represent positional_texts shout [VStr "hey"] []
  = ([], Raise TypeError)
  /\ resolve shout [] = inr [].
Proof. apply classless_function_rejects_positional. reflexivity. Defined.

End TraceProps.

(* ===================================================================== *)
(** ** Further properties of the keyed singleton *)
(* ===================================================================== *)

Module SingleProps.
Import PyStr PyVal Single SingleFacts TextProps.

Lemma join_cons (x : string) (l : list string) :
  join (x :: l) = x +:+ join l.
Proof.
  unfold join. destruct l as [|y l].
  - simpl. rewrite append_empty_r. reflexivity.
  - reflexivity.
Qed.

Lemma join_app (l1 l2 : list string) : join (l1 ++ l2) = join l1 +:+ join l2.
Proof.
  induction l1 as [|x l1 IH]; [reflexivity|].
  rewrite <- app_comm_cons, !join_cons, IH, append_assoc. reflexivity.
Qed.

(** the key of a call is the same when two neighbouring string arguments
    are given as one, when a number is given as its text, and when a lone
    positional string is the name of a lone keyword argument *)
Lemma colliding_keys :
  (forall s1 s2 rest kw,
      cache_key (VStr s1 :: VStr s2 :: rest) kw
      = cache_key (VStr (s1 +:+ s2) :: rest) kw)
  /\ (forall z rest kw,
        cache_key (VInt z :: rest) kw = cache_key (VStr (pretty z) :: rest) kw)
  /\ (forall n v, cache_key [VStr n] [] = cache_key [] [(n, v)]).
Proof.
  split; [|split].
  - intros. rewrite !cache_key_unfold. cbn [map py_str].
    rewrite !join_cons, !append_assoc. reflexivity.
  - intros. rewrite !cache_key_unfold. reflexivity.
  - intros. rewrite !cache_key_unfold. cbn [map py_str fst].
    rewrite !join_cons. cbn [join String.concat].
    rewrite append_empty_r. reflexivity.
Qed.

(** X9: the key has no separator, so a call whose arguments differ from an
    earlier one but spell the same text gets the instance of the earlier
    call, and no constructor runs: two neighbouring strings given as one. *)
Theorem glued_arguments_share_instance (ctor : list value -> kwargs -> bool)
    (st st1 : state) (s1 s2 : string) (rest : list value) (kw : kwargs)
    (i : nat) :
  call ctor st (VStr s1 :: VStr s2 :: rest) kw = (st1, Returned i) ->
  (call ctor st1 (VStr (s1 +:+ s2) :: rest) kw).2 = Returned i
  /\ born (call ctor st1 (VStr (s1 +:+ s2) :: rest) kw).1 = born st1.
Proof.
  intros H. destruct (call_returned _ _ _ _ _ _ H) as (Hk & _ & _).
  destruct colliding_keys as (Hglue & _ & _).
  rewrite (call_hit ctor st1 _ _ i) by (rewrite <- Hglue; exact Hk).
  split; reflexivity.
Qed.

Lemma glued_arguments_share_instance_witness :
  let ctor := fun (_ : list value) (_ : kwargs) => true in
  let st1 := (call ctor initial [VStr "DE"; VStr "BUG"] []).1 in
  (call ctor st1 [VStr "DEBUG"] []).2 = Returned 0
  /\ born (call ctor st1 [VStr "DEBUG"] []).1 = born st1.
Proof.
  intros ctor st1.
  apply (glued_arguments_share_instance ctor initial st1 "DE" "BUG" [] [] 0).
  reflexivity.
Defined.

(** X10: run without interruption, a construction call changes the value of
    no cached entry and adds none but the one of its own key when that key was
    not cached.  It keeps every entry whose instance a caller holds or that
    [Singleton.__instance] did not hold, and it drops the entries of the
    unheld instance that the attribute held, at the moment it binds the
    attribute to another instance.  The constructor runs exactly when the
    key is not cached, and when it fails nothing changes. *)
Theorem call_keeps_cache (ctor : list value -> kwargs -> bool)
    (st : state) (args : list value) (kw : kwargs) :
  (forall k v, cache (call ctor st args kw).1 !! k = Some v ->
               cache st !! k = Some v
               \/ (k = cache_key args kw /\ cache st !! k = None
                   /\ v = born st))
  /\ (forall k v, cache st !! k = Some v ->
                  v ∈ strong st \/ instance st ≠ Some v ->
                  cache (call ctor st args kw).1 !! k = Some v)
  /\ (forall k v r, (call ctor st args kw).2 = Returned r ->
                    cache st !! k = Some v -> instance st = Some v ->
                    v ∉ strong st -> v <> r ->
                    cache (call ctor st args kw).1 !! k = None)
  /\ born (call ctor st args kw).1
     = (if bool_decide (is_Some (cache st !! cache_key args kw))
        then born st
        else if ctor args kw then S (born st) else born st)
  /\ ((call ctor st args kw).2 = Raised -> (call ctor st args kw).1 = st).
Proof.
  assert (forall i k v, cache st !! k = Some v -> instance st = Some v ->
                        v ∉ strong st -> v <> i -> rebound st i !! k = None)
    as Hdrop.
  { intros i k v Hk Hinst Hv Hne. unfold rebound. rewrite Hinst.
    destruct (decide (v = i)); [contradiction|].
    destruct (decide (v ∈ strong st)); [contradiction|].
    apply map_lookup_filter_None. right. intros y Hy. simpl.
    intros Hy'. apply Hy'. congruence. }
  unfold call. destruct (cache st !! cache_key args kw) as [j|] eqn:E.
  - rewrite bool_decide_eq_true_2 by eauto. cbn [fst snd cache born].
    split; [intros k v Hk; left; eapply rebound_lookup_Some; exact Hk|].
    split; [intros k v Hk Hv; apply rebound_lookup_keep; [exact Hk | tauto]|].
    split; [|split; [reflexivity | discriminate]].
    intros k v r [= <-] Hk Hinst Hv Hne. eapply Hdrop; eassumption.
  - rewrite bool_decide_eq_false_2 by (intros [? ?]; discriminate).
    destruct (ctor args kw); cbn [fst snd cache born].
    + split.
      { intros k v. rewrite lookup_insert. case_decide as Hkk.
        - intros [= <-]. right. subst k. auto.
        - intros Hk. left. eapply rebound_lookup_Some. exact Hk. }
      split.
      { intros k v Hk Hv. rewrite lookup_insert_ne by congruence.
        apply rebound_lookup_keep; [exact Hk | tauto]. }
      split; [|split; [reflexivity | discriminate]].
      intros k v r [= <-] Hk Hinst Hv Hne.
      rewrite lookup_insert_ne by congruence. eapply Hdrop; eassumption.
    + split; [auto|]. split; [auto|].
      split; [discriminate|]. split; reflexivity.
Qed.

(** the first instance is kept by its caller, the second is not: the third
    call binds [Singleton.__instance] to the first again, and the entry of
    the second goes *)
Lemma unheld_entry_is_dropped :
  let ctor := fun (_ : list value) (_ : kwargs) => true in
  let s1 := held 0 (call ctor initial [VStr "DEBUG"] []).1 in
  let s2 := (call ctor s1 [VStr "INFO"] []).1 in
  let s3 := call ctor s2 [VStr "DEBUG"] [] in
  cache s2 !! "INFO" = Some 1
  /\ s3.2 = Returned 0
  /\ cache s3.1 !! "INFO" = None
  /\ cache s3.1 !! "DEBUG" = Some 0
  /\ born s3.1 = 2.
Proof. vm_compute. repeat split; reflexivity. Qed.

(** X11: once an instance nobody holds has been reclaimed, a call with its
    key finds the cache empty for that key, runs the constructor and returns
    an instance that is not the old one. *)
Theorem reclaimed_is_rebuilt (ctor : list value -> kwargs -> bool)
    (st : state) (args : list value) (kw : kwargs) (i : nat) :
  sound st ->
  cache st !! cache_key args kw = Some i ->
  i ∉ strong st -> instance st ≠ Some i ->
  ctor args kw = true ->
  step ctor st (reclaimed i st)
  /\ cache (reclaimed i st) !! cache_key args kw = None
  /\ (call ctor (reclaimed i st) args kw).2 = Returned (born st)
  /\ born st <> i
  /\ born (call ctor (reclaimed i st) args kw).1 = S (born st).
Proof.
  intros Hs Hk Hi Hinst Hc.
  assert (cache (reclaimed i st) !! cache_key args kw = None) as Hnone.
  { simpl. apply map_lookup_filter_None. right. intros j Hj. simpl.
    intros Hne. apply Hne. congruence. }
  split; [apply step_collect; assumption|]. split; [exact Hnone|].
  rewrite (call_miss ctor _ _ _ Hnone Hc). simpl.
  split; [reflexivity|]. split; [|reflexivity].
  specialize (Hs _ _ Hk). lia.
Qed.

Lemma reclaimed_is_rebuilt_witness :
  let ctor := fun (_ : list value) (_ : kwargs) => true in
  let st := {| cache := {[ "DEBUG" := 0 ]}; instance := None;
               strong := ∅; born := 1 |} in
  step ctor st (reclaimed 0 st)
  /\ cache (reclaimed 0 st) !! cache_key [VStr "DEBUG"] [] = None
  /\ (call ctor (reclaimed 0 st) [VStr "DEBUG"] []).2 = Returned (born st)
  /\ born st <> 0
  /\ born (call ctor (reclaimed 0 st) [VStr "DEBUG"] []).1 = S (born st).
Proof.
  intros ctor st.
  apply (reclaimed_is_rebuilt ctor st [VStr "DEBUG"] [] 0).
  - intros k j. simpl. intros H.
    apply lookup_singleton_Some in H as [_ <-]. lia.
  - reflexivity.
  - apply not_elem_of_empty.
  - discriminate.
  - reflexivity.
Defined.

Lemma exclusive_spawn (calls : list (list value * kwargs)) :
  exclusive (spawn calls).
Proof.
  intros tid t Ht. unfold spawn in Ht. simpl in Ht.
  rewrite list_lookup_fmap in Ht.
  destruct (calls !! tid); simpl in Ht; [|discriminate].
  injection Ht as <-. discriminate.
Qed.

Lemma exclusive_tstep (ctor : list value -> kwargs -> bool) (tid : nat)
    (sh sh' : shared) :
  tstep ctor tid sh = Some sh' -> exclusive sh -> exclusive sh'.
Proof.
  unfold tstep. destruct (s_threads sh !! tid) as [t|] eqn:Ht; [|discriminate].
  simpl. intros Hstep Hex.
  assert (tid < length (s_threads sh)) as Hlen
    by (eapply lookup_lt_Some; exact Ht).
  assert (forall p lk c ins b tid' t',
            (<[tid := at_pc t p]> (s_threads sh)) !! tid' = Some t' ->
            in_block (t_pc t') = true ->
            (in_block p = true -> lk = Some tid) ->
            (tid' <> tid -> s_lock sh = Some tid' -> lk = Some tid') ->
            s_lock {| s_cache := c; s_instance := ins; s_lock := lk;
                      s_born := b;
                      s_threads := <[tid := at_pc t p]> (s_threads sh) |}
            = Some tid') as Hcase.
  { intros p lk c ins b tid' t' Hl Hin Hself Hother. simpl.
    destruct (decide (tid' = tid)) as [->|Hne].
    - rewrite list_lookup_insert_eq in Hl by exact Hlen.
      injection Hl as <-. simpl in Hin. auto.
    - rewrite list_lookup_insert_ne in Hl by congruence.
      apply Hother; [exact Hne|]. eapply Hex; eassumption. }
  destruct (t_pc t) eqn:Hpc.
  - destruct (s_cache sh !! _); injection Hstep as <-;
      intros tid' t' Hl Hin; unfold set_thread in *;
      eapply Hcase; eauto; discriminate.
  - destruct (s_lock sh) as [holder|] eqn:Hlock; [discriminate|].
    injection Hstep as <-. intros tid' t' Hl Hin.
    eapply Hcase; eauto. intros _ Habs. rewrite Habs in Hlock. discriminate.
  - pose proof (Hex tid t Ht) as Hmine. rewrite Hpc in Hmine.
    specialize (Hmine eq_refl).
    destruct (ctor (t_args t) (t_kw t)); injection Hstep as <-;
      intros tid' t' Hl Hin; eapply Hcase; eauto; try discriminate.
    intros Hne Ho. rewrite Hmine in Ho. congruence.
  - pose proof (Hex tid t Ht) as Hmine. rewrite Hpc in Hmine.
    specialize (Hmine eq_refl).
    destruct (s_instance sh); [|discriminate]. injection Hstep as <-.
    intros tid' t' Hl Hin. eapply Hcase; eauto.
  - pose proof (Hex tid t Ht) as Hmine. rewrite Hpc in Hmine.
    specialize (Hmine eq_refl).
    injection Hstep as <-. intros tid' t' Hl Hin.
    eapply Hcase; eauto; try discriminate.
    intros Hne Ho. rewrite Hmine in Ho. congruence.
  - destruct (s_cache sh !! _); injection Hstep as <-;
      intros tid' t' Hl Hin; unfold set_thread in *;
      eapply Hcase; eauto; discriminate.
  - injection Hstep as <-. intros tid' t' Hl Hin. unfold set_thread in *.
    eapply Hcase; eauto; discriminate.
  - discriminate.
  - discriminate.
Qed.

Lemma exclusive_run (ctor : list value -> kwargs -> bool)
    (schedule : list nat) :
  forall sh sh', run ctor schedule sh = Some sh' -> exclusive sh -> exclusive sh'.
Proof.
  induction schedule as [|tid rest IH]; intros sh sh'; simpl.
  - intros [= <-]. auto.
  - destruct (tstep ctor tid sh) as [sh1|] eqn:E; [|discriminate].
    intros Hrun Hex. eapply IH; [exact Hrun|].
    eapply exclusive_tstep; eassumption.
Qed.

(** X12: under every schedule, from any set of callers that start together,
    no two threads are inside the [with] block of lines 46-48 at once, and
    the one that is inside holds the lock. *)
Theorem lock_is_exclusive (ctor : list value -> kwargs -> bool)
    (calls : list (list value * kwargs)) (schedule : list nat) (sh : shared)
    (tid1 tid2 : nat) (t1 t2 : thread) :
  run ctor schedule (spawn calls) = Some sh ->
  s_threads sh !! tid1 = Some t1 -> in_block (t_pc t1) = true ->
  s_threads sh !! tid2 = Some t2 -> in_block (t_pc t2) = true ->
  tid1 = tid2 /\ s_lock sh = Some tid1.
Proof.
  intros Hrun H1 Hb1 H2 Hb2.
  pose proof (exclusive_run ctor schedule _ _ Hrun (exclusive_spawn calls)) as Hex.
  pose proof (Hex _ _ H1 Hb1) as L1. pose proof (Hex _ _ H2 Hb2) as L2.
  split; [congruence | exact L1].
Qed.

Lemma lock_is_exclusive_witness :
  let ctor := fun (_ : list value) (_ : kwargs) => true in
  let calls := [([VStr "DEBUG"], []); ([VStr "DEBUG"], [])] in
  let sh := default (spawn calls) (run ctor [0; 0; 1] (spawn calls)) in
  0 = 0 /\ s_lock sh = Some 0.
Proof.
  intros ctor calls sh.
  apply (lock_is_exclusive ctor calls [0; 0; 1] sh 0 0
           (mkThread [VStr "DEBUG"] [] AtConstruct)
           (mkThread [VStr "DEBUG"] [] AtConstruct)); reflexivity.
Defined.

End SingleProps.

(* ===================================================================== *)
(** ** Further properties of the interleaved callers *)
(* ===================================================================== *)

Module RaceProps.
Import PyStr PyVal Single SingleFacts.

Lemma run_cons (ctor : list value -> kwargs -> bool) (tid : nat)
    (rest : list nat) (sh sh1 : shared) :
  tstep ctor tid sh = Some sh1 -> run ctor (tid :: rest) sh = run ctor rest sh1.
Proof. intros H. simpl. rewrite H. reflexivity. Qed.

Ltac advance k1 k2 Hl :=
  erewrite run_cons;
  [| unfold tstep, set_thread, at_pc, s_rebound, handed; simpl;
     fold k1; fold k2;
     rewrite ?Hl, ?lookup_empty, ?lookup_insert_eq; simpl; try reflexivity ].

(** X13: the value returned and the value cached are read from the shared
    attribute [Singleton.__instance], which a caller on the fetch path writes
    without the lock.  For any two calls with different keys there is a
    schedule in which the caller that constructs for the second key caches
    and returns the instance of the first key, and the instance it built is
    lost. *)
Theorem fetch_overwrites_constructed (a1 a2 : list value) (kw1 kw2 : kwargs) :
  cache_key a1 kw1 <> cache_key a2 kw2 ->
  exists sh,
    run (fun _ _ => true) [0; 0; 0; 0; 0; 0; 1; 1; 1; 2; 2; 1; 1; 1; 2]
      (spawn [(a1, kw1); (a2, kw2); (a1, kw1)]) = Some sh
    /\ results sh = [Done (Some 0); Done (Some 0); Done (Some 0)]
    /\ s_cache sh !! cache_key a1 kw1 = Some 0
    /\ s_cache sh !! cache_key a2 kw2 = Some 0
    /\ s_born sh = 2.
Proof.
  intros Hne. unfold spawn. cbn [map fst snd].
  set (k1 := cache_key a1 kw1) in *. set (k2 := cache_key a2 kw2) in *.
  assert (forall v (m : gmap string nat), <[k1:=v]> m !! k2 = m !! k2) as Hl
    by (intros; apply lookup_insert_ne; exact Hne).
  do 15 advance k1 k2 Hl.
  eexists. split; [reflexivity|]. simpl.
  split; [reflexivity|]. split.
  - rewrite lookup_insert_ne by congruence.
    apply map_lookup_filter_Some. split; [apply lookup_insert_eq|].
    simpl. lia.
  - split; [apply lookup_insert_eq | reflexivity].
Qed.

Lemma fetch_overwrites_constructed_witness :
  exists sh,
    run (fun _ _ => true) [0; 0; 0; 0; 0; 0; 1; 1; 1; 2; 2; 1; 1; 1; 2]
      (spawn [([VStr "DEBUG"], []); ([VStr "INFO"], []); ([VStr "DEBUG"], [])])
    = Some sh
    /\ results sh = [Done (Some 0); Done (Some 0); Done (Some 0)]
    /\ s_cache sh !! cache_key [VStr "DEBUG"] [] = Some 0
    /\ s_cache sh !! cache_key [VStr "INFO"] [] = Some 0
    /\ s_born sh = 2.
Proof. apply fetch_overwrites_constructed. discriminate. Defined.

(** an instance that [Singleton.__instance] loses before its caller has
    read it is reclaimed with its entry: the first caller is handed the
    instance of the second, and its own key is no longer cached *)
Lemma overwritten_before_return :
  let calls := [([VStr "DEBUG"], []); ([VStr "INFO"], [])] in
  let schedule := [0; 0; 0; 0; 0; 1; 1; 1; 1; 1; 1; 0] in
  (fun sh => (results sh, s_cache sh !! "DEBUG", s_cache sh !! "INFO", s_born sh))
    <$> run (fun _ _ => true) schedule (spawn calls)
  = Some ([Done (Some 1); Done (Some 1)], None, Some 1, 2).
Proof. vm_compute. reflexivity. Qed.

End RaceProps.

(* ===================================================================== *)
(** ** Further properties of the class instrumentor *)
(* ===================================================================== *)

Module InstrumentProps.
Import PyStr Instrument InstrumentFacts.

Lemma class_name_of_routine (h : list obj) (r : nat) (o : obj) :
  named_heap h -> h !! r = Some o -> is_routine o = true ->
  exists cn, class_name o = Some cn.
Proof.
  intros Hn Ho Hr. destruct (Hn _ _ Ho Hr) as [q Hq].
  destruct (split_char_head "."%char q) as [cn Hcn].
  exists cn. unfold class_name. rewrite Hq. exact Hcn.
Qed.

(** one turn of the loop, told by [wanted] *)
Lemma log_member_exact (cfg : config) (h : list obj)
    (pre todo : list (string * nat)) (n : string) (r : nat) (o : obj) :
  n ∉ pre.*1 -> h !! r = Some o -> is_routine o = true -> named_heap h ->
  log_member cfg {| heap := h; attrs := pre ++ (n, r) :: todo |} (n, r)
  = Some (if wanted cfg n o
          then {| heap := h ++ [marked (traced o r)];
                  attrs := pre ++ (n, length h) :: todo |}
          else {| heap := h; attrs := pre ++ (n, r) :: todo |}).
Proof.
  intros Hn Ho Hr Hnamed.
  destruct (class_name_of_routine h r o Hnamed Ho Hr) as [cn Hclass].
  assert (r < length h) as Hlt by (eapply lookup_lt_Some; exact Ho).
  unfold wanted. rewrite Hr, Hclass. simpl andb.
  unfold log_member, deref, getattr. simpl heap. simpl attrs.
  rewrite Ho. simpl. rewrite Hclass. simpl.
  destruct (startswith n "_"); [reflexivity|]. simpl.
  destruct (selected cfg cn); [|reflexivity]. simpl.
  rewrite (assoc_middle _ _ _ _ Hn). simpl. rewrite Ho. simpl.
  assert (wrap_and_mark {| heap := h; attrs := pre ++ (n, r) :: todo |} n r
          = Some {| heap := h ++ [marked (traced o r)];
                    attrs := pre ++ (n, length h) :: todo |}) as Hwrap.
  { unfold wrap_and_mark, deref, getattr. simpl heap. simpl attrs.
    rewrite Ho. simpl. rewrite (rebind_middle _ _ _ _ _ Hn).
    rewrite (assoc_middle _ _ _ _ Hn). simpl.
    rewrite lookup_app_r by lia. rewrite Nat.sub_diag. simpl.
    f_equal. f_equal.
    rewrite insert_app_r_alt by lia. rewrite Nat.sub_diag. reflexivity. }
  destruct (o_log o) as [[|]|] eqn:Hlog; simpl;
    [reflexivity | exact Hwrap | exact Hwrap].
Qed.

(** objects added to the heap do not change what [instrumented] says of
    attributes bound to the old ones *)
Lemma instrumented_prefix (cfg : config) (h h1 : list obj)
    (l : list (string * nat)) :
  h `prefix_of` h1 -> Forall (fun m => m.2 < length h) l ->
  forall next, instrumented cfg h1 next l = instrumented cfg h next l.
Proof.
  intros Hp Hl. induction Hl as [|[n r] l Hm _ IH]; intros next; [reflexivity|].
  simpl in Hm. apply lookup_lt_is_Some in Hm as [o Ho].
  pose proof (prefix_lookup_Some _ _ _ _ Ho Hp) as Ho1.
  simpl. rewrite Ho, Ho1, !IH. reflexivity.
Qed.

Lemma log_members_exact (cfg : config) (todo : list (string * nat)) :
  forall (pre : list (string * nat)) (h : list obj),
    NoDup (pre ++ todo).*1 ->
    Forall (fun m => m.2 < length h) todo ->
    named_heap h ->
    log_members cfg (filter (routine_in h) todo)
      {| heap := h; attrs := pre ++ todo |}
    = Some {| heap := h ++ (instrumented cfg h (length h) todo).2;
              attrs := pre ++ (instrumented cfg h (length h) todo).1 |}.
Proof.
  induction todo as [|[n r] todo IH]; intros pre h Hnd Hlt Hnamed.
  - simpl. rewrite !app_nil_r. reflexivity.
  - assert (n ∉ pre.*1) as Hn.
    { rewrite fmap_app in Hnd. apply NoDup_app in Hnd as (_ & Hd & _).
      intros Hin. apply (Hd _ Hin). simpl. left. }
    apply Forall_cons in Hlt as [Hr Hlt]. simpl in Hr.
    destruct (lookup_lt_is_Some_2 _ _ Hr) as [o Ho].
    assert (NoDup ((pre ++ [(n, r)]) ++ todo).*1) as Hnd1
      by (rewrite <- app_assoc; exact Hnd).
    assert (forall r1, NoDup ((pre ++ [(n, r1)]) ++ todo).*1) as Hnd2.
    { intros r1. rewrite <- app_assoc. rewrite !fmap_app in *. exact Hnd. }
    cbn [instrumented]. rewrite Ho.
    destruct (is_routine o) eqn:Hrout.
    + rewrite filter_cons_True
        by (unfold routine_in; simpl; rewrite Ho; simpl; congruence).
      cbn [log_members].
      rewrite (log_member_exact cfg h pre todo n r o Hn Ho Hrout Hnamed).
      destruct (wanted cfg n o) eqn:Hw.
      * set (h1 := h ++ [marked (traced o r)]).
        assert (h `prefix_of` h1) as Hp by (apply prefix_app_r; reflexivity).
        assert (length h1 = S (length h)) as Hlen
          by (unfold h1; rewrite length_app; simpl; lia).
        rewrite <- (filter_routine_prefix h h1) by assumption.
        replace (pre ++ (n, length h) :: todo)
          with ((pre ++ [(n, length h)]) ++ todo)
          by (rewrite <- app_assoc; reflexivity).
        rewrite (IH (pre ++ [(n, length h)]) h1).
        -- rewrite (instrumented_prefix cfg h h1) by assumption.
           rewrite Hlen. cbn [fst snd]. unfold h1.
           rewrite <- !app_assoc. reflexivity.
        -- apply Hnd2.
        -- eapply Forall_impl; [exact Hlt|]. simpl. intros; lia.
        -- apply named_heap_snoc; [exact Hnamed|]. intros _. simpl.
           apply (Hnamed _ _ Ho Hrout).
      * replace (pre ++ (n, r) :: todo) with ((pre ++ [(n, r)]) ++ todo)
          by (rewrite <- app_assoc; reflexivity).
        rewrite (IH (pre ++ [(n, r)]) h Hnd1 Hlt Hnamed).
        cbn [fst snd]. rewrite <- !app_assoc. reflexivity.
    + rewrite filter_cons_False
        by (unfold routine_in; simpl; rewrite Ho; simpl; congruence).
      assert (wanted cfg n o = false) as -> by (unfold wanted; rewrite Hrout; reflexivity).
      replace (pre ++ (n, r) :: todo) with ((pre ++ [(n, r)]) ++ todo)
        by (rewrite <- app_assoc; reflexivity).
      rewrite (IH (pre ++ [(n, r)]) h Hnd1 Hlt Hnamed).
      cbn [fst snd]. rewrite <- !app_assoc. reflexivity.
Qed.

Lemma log_exact (cfg : config) (w : world) :
  wf w -> named w ->
  log cfg w
  = Some {| heap := heap w
                    ++ (instrumented cfg (heap w) (length (heap w)) (attrs w)).2;
            attrs := (instrumented cfg (heap w) (length (heap w)) (attrs w)).1 |}.
Proof.
  intros [Hnd Hlt] Hnamed. destruct w as [h l]. simpl in *.
  unfold log. rewrite getmembers_unfold.
  apply (log_members_exact cfg l [] h); assumption.
Qed.

(** X14: the loop of [log], which rebinds attributes of the class while it
    walks a list made beforehand, does what the plain recursion [instrumented]
    says: the objects that were there stay as they are, one marked wrapper is
    added per wanted member, in the order of the attributes, and the
    attributes are rebound accordingly. *)
Theorem log_is_instrumented (cfg : config) (w : world) :
  wf w -> named w ->
  log cfg w
  = Some {| heap := heap w
                    ++ (instrumented cfg (heap w) (length (heap w)) (attrs w)).2;
            attrs := (instrumented cfg (heap w) (length (heap w)) (attrs w)).1 |}.
Proof. exact (log_exact cfg w). Qed.

Lemma widget_wf : wf widget /\ named widget.
Proof.
  split.
  - split; apply (bool_decide_unpack _); vm_compute; exact I.
  - intros r o Hl Hr. unfold widget in Hl. simpl in Hl.
    destruct r as [|[|[|[|r]]]]; simpl in Hl; try discriminate;
      injection Hl as <-; simpl in *; eauto; discriminate.
Defined.

Lemma log_is_instrumented_witness :
  log by_suffix widget
  = Some {| heap := heap widget
                    ++ (instrumented by_suffix (heap widget)
                          (length (heap widget)) (attrs widget)).2;
            attrs := (instrumented by_suffix (heap widget)
                        (length (heap widget)) (attrs widget)).1 |}.
Proof.
  apply log_is_instrumented; [exact (proj1 widget_wf) | exact (proj2 widget_wf)].
Defined.

(** what [instrumented] does with each attribute *)
Lemma instrumented_member (cfg : config) (h : list obj)
    (l : list (string * nat)) :
  forall next n r o,
    (n, r) ∈ l -> h !! r = Some o ->
    if wanted cfg n o
    then exists i, (n, next + i) ∈ (instrumented cfg h next l).1
                   /\ (instrumented cfg h next l).2 !! i
                      = Some (marked (traced o r))
    else (n, r) ∈ (instrumented cfg h next l).1.
Proof.
  induction l as [|[n0 r0] l IH]; intros next n r o Hin Ho.
  - apply elem_of_nil in Hin. contradiction.
  - apply elem_of_cons in Hin as [[= -> ->]|Hin].
    + simpl. rewrite Ho. destruct (wanted cfg n0 o); simpl.
      * exists 0. rewrite Nat.add_0_r. split; [left | reflexivity].
      * left.
    + simpl. destruct (h !! r0) as [o0|] eqn:Ho0.
      * destruct (wanted cfg n0 o0); simpl.
        -- specialize (IH (S next) n r o Hin Ho).
           destruct (wanted cfg n o); [|right; exact IH].
           destruct IH as (i & Hi & Hl). exists (S i).
           split; [|exact Hl]. right.
           replace (next + S i) with (S next + i) by lia. exact Hi.
        -- specialize (IH next n r o Hin Ho).
           destruct (wanted cfg n o); [|right; exact IH].
           destruct IH as (i & Hi & Hl). exists i. split; [right|]; assumption.
      * simpl. specialize (IH next n r o Hin Ho).
        destruct (wanted cfg n o); [|right; exact IH].
        destruct IH as (i & Hi & Hl). exists i. split; [right|]; assumption.
Qed.

(** X15: after [log], an attribute that was not wanted (a private name, an
    object that is no function or method, a class the rules do not select,
    a member already marked) is bound to the object it was bound to; a
    wanted member is bound to a new function past the old heap that carries
    a true mark, the qualified name of the member and the member itself as
    [__wrapped__]; and every object of the old heap is unchanged. *)
Theorem log_touches_only_wanted (cfg : config) (w w1 : world)
    (n : string) (r : nat) (o : obj) :
  wf w -> named w -> log cfg w = Some w1 ->
  (n, r) ∈ attrs w -> deref w r = Some o ->
  deref w1 r = Some o
  /\ if wanted cfg n o
     then exists r', (n, r') ∈ attrs w1
                     /\ length (heap w) <= r'
                     /\ deref w1 r'
                        = Some {| o_kind := IsFunction;
                                  o_qualname := o_qualname o;
                                  o_self_name := None;
                                  o_log := Some true;
                                  o_wrapped := Some r |}
     else (n, r) ∈ attrs w1.
Proof.
  intros Hwf Hnamed Hlog Hin Ho.
  rewrite (log_exact cfg w Hwf Hnamed) in Hlog.
  injection Hlog as <-. unfold deref in *. simpl.
  split; [apply lookup_app_l_Some; exact Ho|].
  pose proof (instrumented_member cfg (heap w) (attrs w)
                (length (heap w)) n r o Hin Ho) as H.
  destruct (wanted cfg n o); [|exact H].
  destruct H as (i & Hi & Hl). exists (length (heap w) + i).
  split; [exact Hi|]. split; [lia|].
  rewrite lookup_app_r by lia.
  replace (length (heap w) + i - length (heap w)) with i by lia.
  exact Hl.
Qed.

Lemma log_touches_only_wanted_witness :
  let o := mkObj IsFunction (Some "LoginWidget.click") None None None in
  let w1 := default widget (log by_suffix widget) in
  deref w1 1 = Some o
  /\ if wanted by_suffix "click" o
     then exists r', (("click", r') : string * nat) ∈ attrs w1
                     /\ length (heap widget) <= r'
                     /\ deref w1 r'
                        = Some {| o_kind := IsFunction;
                                  o_qualname := o_qualname o;
                                  o_self_name := None;
                                  o_log := Some true;
                                  o_wrapped := Some 1 |}
     else (("click", 1) : string * nat) ∈ attrs w1.
Proof.
  intros o w1.
  apply (log_touches_only_wanted by_suffix widget w1 "click" 1 o
           (proj1 widget_wf) (proj2 widget_wf)).
  - reflexivity.
  - right. left.
  - reflexivity.
Defined.

Lemma instrumented_nothing (cfg : config) (h : list obj)
    (l : list (string * nat)) :
  (forall n r o, (n, r) ∈ l -> h !! r = Some o -> wanted cfg n o = false) ->
  forall next, instrumented cfg h next l = (l, []).
Proof.
  induction l as [|[n r] l IH]; intros Hno next; [reflexivity|].
  assert (forall k, instrumented cfg h k l = (l, [])) as Hl
    by (apply IH; intros; eapply Hno; [right|]; eassumption).
  simpl. rewrite !Hl.
  destruct (h !! r) as [o|] eqn:Ho; [|reflexivity].
  rewrite (Hno n r o) by (left || exact Ho). reflexivity.
Qed.

(** X16: the rules select a class name when one of the prefixes, suffixes or
    fragments fits; with three empty lists no name is selected, and an empty
    text in any of the lists selects every name. *)
Theorem selected_edges (cfg : config) (cn : string) :
  "" ∈ CLASS_NAME_STARTSWITH cfg \/ "" ∈ CLASS_NAME_ENDSWITH cfg
  \/ "" ∈ CLASS_NAME_CONTAIN cfg ->
  selected cfg cn = true /\ selected no_rules cn = false.
Proof.
  assert (forall t, String.prefix "" t = true) as Hempty
    by (intros t; destruct t; reflexivity).
  intros Hin. split; [|reflexivity]. unfold selected.
  destruct Hin as [H|[H|H]]; apply list_elem_of_In in H.
  - assert (existsb (startswith cn) (CLASS_NAME_STARTSWITH cfg) = true) as ->
      by (apply existsb_exists; exists ""; split; [exact H | apply Hempty]).
    reflexivity.
  - assert (existsb (endswith cn) (CLASS_NAME_ENDSWITH cfg) = true) as ->
      by (apply existsb_exists; exists ""; split; [exact H | apply Hempty]).
    rewrite orb_true_r. reflexivity.
  - assert (existsb (find_gt_m1 cn) (CLASS_NAME_CONTAIN cfg) = true) as ->.
    { apply existsb_exists. exists "". split; [exact H|].
      unfold find_gt_m1. destruct cn; reflexivity. }
    apply orb_true_r.
Qed.

Lemma selected_edges_witness :
  selected (mkConfig [] [""] []) "Calc" = true
  /\ selected no_rules "Calc" = false.
Proof.
  apply (selected_edges (mkConfig [] [""] []) "Calc").
  right. left. simpl. left.
Defined.

(** X17: with no rule at all, [log] returns the class as it was given. *)
Theorem log_without_rules (w : world) :
  wf w -> named w -> log no_rules w = Some w.
Proof.
  intros Hwf Hnamed. rewrite (log_exact no_rules w Hwf Hnamed).
  rewrite instrumented_nothing.
  - simpl. rewrite app_nil_r. destruct w; reflexivity.
  - intros n r o _ _. unfold wanted.
    destruct (class_name o); simpl; rewrite ?andb_false_r; reflexivity.
Qed.

Lemma log_without_rules_witness : log no_rules widget = Some widget.
Proof.
  apply log_without_rules; [exact (proj1 widget_wf) | exact (proj2 widget_wf)].
Defined.

End InstrumentProps.

(* ===================================================================== *)
(** ** Further properties of the logging facade *)
(* ===================================================================== *)

Module FacadeProps.
Import PyStr Facade FacadeFacts.

(** what one call leaves of the handlers and of the cache: what
    [ensure_sink] leaves, and the handler of [basicConfig] when the call
    reaches [logging] with none *)
Lemma serve_env (e : env) (r : request) :
  (serve e r).1
  = (if emits (serve e r).2 then basic_config (ensure_sink e) else ensure_sink e).
Proof.
  destruct r as [m b|m b|m b|m|m]; simpl.
  - unfold info. destruct (with_caller _ _ _); reflexivity.
  - unfold debug.
    destruct (if b then _ else _) as [x|msg]; [reflexivity|].
    destruct (frame_name (ensure_sink e) 2) as [[|]|n]; try reflexivity.
    destruct (startswith n "test_"); reflexivity.
  - unfold error. destruct (with_caller _ _ _); reflexivity.
  - reflexivity.
  - reflexivity.
Qed.

(** where the root logger has a handler, no call changes their number *)
Lemma serve_all_settled (rs : list (bool * list string * request))
    (hs : nat) (lc : bool) :
  hs <> 0 -> (serve_all hs lc rs).1 = (hs, lc).
Proof.
  revert hs lc. induction rs as [|[[g cs] r] rs IH]; intros hs lc Hne;
    [reflexivity|].
  cbn [serve_all fst snd]. rewrite serve_env.
  assert (ensure_sink (mkEnv g cs hs lc) = mkEnv g cs hs lc) as ->.
  { unfold ensure_sink. cbn [handlers].
    destruct (Nat.eqb_spec hs 0); [contradiction | reflexivity]. }
  assert (basic_config (mkEnv g cs hs lc) = mkEnv g cs hs lc) as ->.
  { unfold basic_config. cbn [handlers].
    destruct (Nat.eqb_spec hs 0); [contradiction | reflexivity]. }
  destruct (emits _); cbn [handlers logger_cached]; apply IH; exact Hne.
Qed.

(** with a cached instance and no handler the logger is not built again;
    the first call that reaches [logging] gets the handler of [basicConfig] *)
Lemma serve_all_cached (rs : list (bool * list string * request)) :
  (serve_all 0 true rs).1
  = (if existsb emits (serve_all 0 true rs).2 then 1 else 0, true).
Proof.
  induction rs as [|[[g cs] r] rs IH]; [reflexivity|].
  cbn [serve_all fst snd existsb]. rewrite serve_env.
  destruct (emits (serve (mkEnv g cs 0 true) r).2);
    cbn [ensure_sink basic_config handlers logger_cached Nat.eqb orb].
  - apply serve_all_settled. discriminate.
  - exact IH.
Qed.

(** X18: in a process that reaches the root logger and the logger singleton
    through the five entry points only, whatever entry points are called,
    from whatever call sites, and whether they emit or fail.  The three
    handlers of [logger.__init__] are installed by the first call and by no
    later one, and by the first call only when the root logger has no
    handler and the class has no cached instance.  Where the root logger
    has handlers their number never changes.  With no handler but a cached
    instance the logger is never built again: the root logger stays without
    a handler until a call reaches [logging], whose [basicConfig] gives it
    one. *)
Theorem sink_is_built_once (hs : nat) (lc g : bool) (cs : list string)
    (r : request) (rs : list (bool * list string * request)) :
  let served := serve_all hs lc ((g, cs, r) :: rs) in
  served.1
  = (if Nat.eqb hs 0
     then if lc then (if existsb emits served.2 then 1 else 0) else 3
     else hs,
     lc || Nat.eqb hs 0).
Proof.
  intros served. subst served.
  destruct (Nat.eqb_spec hs 0) as [->|Hne].
  - destruct lc; cbn [orb].
    + apply serve_all_cached.
    + cbn [serve_all fst snd]. rewrite serve_env.
      cbn [ensure_sink basic_config handlers logger_cached Nat.eqb].
      destruct (emits _); cbn [handlers logger_cached];
        apply serve_all_settled; discriminate.
  - rewrite orb_false_r. apply serve_all_settled. exact Hne.
Qed.

(** X19: [info] and [error] asked to name the caller put "[caller]: " in
    front of the message; with no frame below them they raise [ValueError],
    and [AttributeError] where [sys] has no [_getframe]; asked not to name
    the caller they emit the message as it is in every environment, as
    [warning] and [exception] always do.  The severity is the entry point's
    own, [exception] recording at error severity. *)
Theorem prefix_or_failure (e : env) (message : string) (auteadd : bool) :
  let told (lvl : level) : outcome :=
    if auteadd then
      if has_getframe e then
        match callers e with
        | c :: _ => Emitted lvl ("[" +:+ c +:+ "]: " +:+ message)
        | [] => Raised ValueError
        end
      else Raised AttributeError
    else Emitted lvl message in
  (info e message auteadd).2 = told INFO
  /\ (error e message auteadd).2 = told ERROR
  /\ (warning e message).2 = Emitted WARNING message
  /\ (exception e message).2 = Emitted ERROR message.
Proof.
  unfold info, error, with_caller. rewrite !frame_name_ensure_sink.
  unfold frame_name. simpl.
  destruct auteadd; [|repeat split].
  destruct (has_getframe e); [|repeat split].
  destruct (callers e); repeat split.
Qed.

End FacadeProps.

(* ===================================================================== *)
(** ** Properties of the console formatter *)
(* ===================================================================== *)

Module ColourProps.
Import PyStr Colour TextProps.

Lemma plain_clean (a b : string) :
  occurs ESC a = false -> plain_from false (a +:+ b) = a +:+ plain_from false b.
Proof.
  induction a as [|c a IH]; intros H; [reflexivity|].
  simpl in H. apply orb_false_elim in H as [Hc Ha].
  rewrite !append_cons. simpl. rewrite Hc, (IH Ha). reflexivity.
Qed.

Lemma plain_clean_all (a : string) :
  occurs ESC a = false -> plain_from false a = a.
Proof.
  intros H. rewrite <- (append_empty_r a) at 1.
  rewrite (plain_clean a "" H). simpl. apply append_empty_r.
Qed.

Lemma plain_skip (x b : string) :
  occurs "m"%char x = false ->
  plain_from true (x +:+ "m" +:+ b) = plain_from false b.
Proof.
  induction x as [|c x IH]; intros H; [reflexivity|].
  simpl in H. apply orb_false_elim in H as [Hc Hx].
  rewrite append_cons. simpl. rewrite Hc. auto.
Qed.

Lemma plain_sgr (code b : string) :
  occurs "m"%char code = false ->
  plain_from false (sgr code +:+ b) = plain_from false b.
Proof.
  intros H. unfold sgr. rewrite append_cons. simpl plain_from.
  rewrite !append_assoc. change ("[" +:+ code +:+ "m" +:+ b)
    with (String "[" (code +:+ "m" +:+ b)).
  simpl plain_from. apply plain_skip. exact H.
Qed.

Lemma line_split (s : string) : s = (line s).1 +:+ (line s).2.
Proof.
  induction s as [|c s IH]; [reflexivity|]. simpl.
  destruct (Ascii.eqb c LF); [reflexivity|].
  simpl. rewrite append_cons. f_equal. exact IH.
Qed.

Lemma label_tail_split (s l r : string) :
  label_tail s = Some (l, r) -> s = l +:+ r.
Proof.
  revert l r. induction s as [|c s IH]; intros l r; simpl; [discriminate|].
  destruct (Ascii.eqb_spec c "]") as [->|_]; [intros [= <- <-]; reflexivity|].
  destruct (is_label_char c); [|discriminate].
  destruct (label_tail s) as [[l' r']|]; [|discriminate].
  intros [= <- <-]. rewrite append_cons. f_equal. apply IH. reflexivity.
Qed.

Lemma label_split (s l r : string) : label s = Some (l, r) -> s = l +:+ r.
Proof.
  destruct s as [|c s]; simpl; [discriminate|].
  destruct (Ascii.eqb_spec c "[") as [->|_]; [|discriminate].
  destruct (label_tail s) as [[l' r']|] eqn:E; [|discriminate].
  intros [= <- <-]. rewrite append_cons. f_equal.
  apply label_tail_split. exact E.
Qed.

Lemma match_here_split (s g1 g2 rest : string) :
  match_here s = Some (g1, g2, rest) -> s = g1 +:+ g2 +:+ rest.
Proof.
  unfold match_here.
  assert ((let r := line s in
           if String.eqb r.1 "" then None else Some ("", r.1, r.2))
          = Some (g1, g2, rest) -> s = g1 +:+ g2 +:+ rest) as Hplain.
  { simpl. destruct (String.eqb (line s).1 ""); [discriminate|].
    intros [= <- <- <-]. apply line_split. }
  destruct (label s) as [[l after]|] eqn:El; [|exact Hplain].
  simpl. destruct (String.eqb (line after).1 ""); [exact Hplain|].
  intros [= <- <- <-]. rewrite (label_split _ _ _ El). f_equal. apply line_split.
Qed.

(** where [sub_first] puts its escape sequences *)
Lemma sub_first_shape (colour s : string) :
  sub_first colour s = s
  \/ exists pre g1 g2 rest,
       s = pre +:+ g1 +:+ g2 +:+ rest
       /\ sub_first colour s
          = pre +:+ GREEN +:+ g1 +:+ RESET +:+ colour +:+ g2 +:+ RESET +:+ rest.
Proof.
  induction s as [|c s IH].
  - left. reflexivity.
  - cbn [sub_first]. destruct (match_here (String c s)) as [[[g1 g2] rest]|] eqn:E.
    + right. exists "", g1, g2, rest. split; [|reflexivity].
      exact (match_here_split (String c s) g1 g2 rest E).
    + destruct IH as [->|(pre & g1 & g2 & rest & Hs & ->)]; [left; reflexivity|].
      right. exists (String c pre), g1, g2, rest.
      rewrite !append_cons. split; [f_equal; exact Hs | reflexivity].
Qed.

Lemma plain_sub_first (code s : string) :
  occurs "m"%char code = false -> occurs ESC s = false ->
  plain (sub_first (sgr code) s) = s.
Proof.
  intros Hcode Hs. unfold plain.
  destruct (sub_first_shape (sgr code) s)
    as [->|(pre & g1 & g2 & rest & Heq & ->)]; [apply plain_clean_all; exact Hs|].
  rewrite Heq in Hs. rewrite !occurs_append in Hs.
  apply orb_false_elim in Hs as [Hpre Hs].
  apply orb_false_elim in Hs as [Hg1 Hs].
  apply orb_false_elim in Hs as [Hg2 Hrest].
  rewrite (plain_clean pre _ Hpre).
  unfold GREEN, RESET. rewrite (plain_sgr "1;32") by reflexivity.
  rewrite (plain_clean g1 _ Hg1), (plain_sgr "0") by reflexivity.
  rewrite (plain_sgr code) by exact Hcode.
  rewrite (plain_clean g2 _ Hg2), (plain_sgr "0") by reflexivity.
  rewrite (plain_clean_all rest Hrest). symmetry. exact Heq.
Qed.

Lemma prefix_append_self (p b : string) : String.prefix p (p +:+ b) = true.
Proof.
  induction p as [|c p IH]; [destruct b; reflexivity|].
  rewrite append_cons. simpl. destruct (Ascii.ascii_dec c c); [exact IH | congruence].
Qed.

Lemma percent_clean (r : record) (a b : string) :
  occurs "%"%char a = false ->
  percent_from r 0 (a +:+ b) = (fun t => a +:+ t) <$> percent_from r 0 b.
Proof.
  induction a as [|c a IH]; intros H.
  - change ("" +:+ b) with b. destruct (percent_from r 0 b); reflexivity.
  - simpl in H. apply orb_false_elim in H as [Hc Ha].
    rewrite append_cons. cbn [percent_from]. rewrite Hc, (IH Ha).
    destruct (percent_from r 0 b); reflexivity.
Qed.

Lemma percent_skip (r : record) (a b : string) :
  percent_from r (String.length a) (a +:+ b) = percent_from r 0 b.
Proof.
  induction a as [|c a IH]; [reflexivity|].
  rewrite append_cons. cbn [String.length percent_from]. exact IH.
Qed.

Lemma percent_asctime (r : record) (b : string) :
  percent_from r 0 ("%(asctime)s" +:+ b)
  = (fun t => asctime r +:+ t) <$> percent_from r 0 b.
Proof.
  change ("%(asctime)s" +:+ b) with (String "%" ("(asctime)s" +:+ b)).
  cbn [percent_from]. change (Ascii.eqb "%" "%") with true. cbv iota.
  change (String "%" ("(asctime)s" +:+ b)) with ("%(asctime)s" +:+ b).
  rewrite prefix_append_self.
  change 10 with (String.length "(asctime)s"). rewrite percent_skip. reflexivity.
Qed.

Lemma percent_levelname (r : record) (b : string) :
  percent_from r 0 ("%(levelname)s" +:+ b)
  = (fun t => levelname r +:+ t) <$> percent_from r 0 b.
Proof.
  assert (String.prefix "%(asctime)s" ("%(levelname)s" +:+ b) = false) as H1
    by reflexivity.
  change ("%(levelname)s" +:+ b) with (String "%" ("(levelname)s" +:+ b)) in *.
  cbn [percent_from]. change (Ascii.eqb "%" "%") with true. cbv iota.
  rewrite H1.
  change (String "%" ("(levelname)s" +:+ b)) with ("%(levelname)s" +:+ b).
  rewrite prefix_append_self.
  change 12 with (String.length "(levelname)s"). rewrite percent_skip. reflexivity.
Qed.

Lemma percent_message (r : record) (b : string) :
  percent_from r 0 ("%(message)s" +:+ b)
  = (fun t => message r +:+ t) <$> percent_from r 0 b.
Proof.
  assert (String.prefix "%(asctime)s" ("%(message)s" +:+ b) = false) as H1
    by reflexivity.
  assert (String.prefix "%(levelname)s" ("%(message)s" +:+ b) = false) as H2
    by reflexivity.
  change ("%(message)s" +:+ b) with (String "%" ("(message)s" +:+ b)) in *.
  cbn [percent_from]. change (Ascii.eqb "%" "%") with true. cbv iota.
  rewrite H1, H2.
  change (String "%" ("(message)s" +:+ b)) with ("%(message)s" +:+ b).
  rewrite prefix_append_self.
  change 10 with (String.length "(message)s"). rewrite percent_skip. reflexivity.
Qed.

(** with no per cent sign in the host the three fields are the only ones,
    and the line is the format with each field in place *)
Lemma formatMessage_fields (host : string) (r : record) :
  occurs "%"%char host = false ->
  formatMessage host r
  = Some (RED +:+ host +:+ RESET +:+ ": " +:+ YELLOW +:+ asctime (paint r)
          +:+ RESET +:+ " | " +:+ levelname (paint r) +:+ " | "
          +:+ message (paint r)).
Proof.
  intros Hh. unfold formatMessage, console_format.
  change " | %(levelname)s | %(message)s"
    with (" | " +:+ "%(levelname)s" +:+ " | " +:+ "%(message)s" +:+ "").
  rewrite (percent_clean _ RED) by reflexivity.
  rewrite (percent_clean _ host) by exact Hh.
  rewrite (percent_clean _ RESET) by reflexivity.
  rewrite (percent_clean _ ": ") by reflexivity.
  rewrite (percent_clean _ YELLOW) by reflexivity.
  rewrite percent_asctime.
  rewrite (percent_clean _ RESET) by reflexivity.
  rewrite (percent_clean _ " | ") by reflexivity.
  rewrite percent_levelname.
  rewrite (percent_clean _ " | ") by reflexivity.
  rewrite percent_message.
  cbn [percent_from fmap option_fmap option_map].
  rewrite append_empty_r. reflexivity.
Qed.

(** a doubled per cent sign in the host comes out as one, a single one
    makes a format the model does not cover *)
Lemma formatMessage_per_cent :
  plain <$> formatMessage "x86%%64" (mkRecord "WARNING" "low disk" "11/04 10:00:00")
  = Some "x86%64: 11/04 10:00:00 | WARNING | low disk"
  /\ formatMessage "x86%64" (mkRecord "WARNING" "low disk" "11/04 10:00:00")
     = None.
Proof. split; reflexivity. Qed.

(** X20: when the host holds no per cent sign, the formatter yields a line,
    and with its escape sequences taken out that line is
    "host: time | LEVEL | message" with the message it was given, provided
    the host, the time, the level name and the message hold no escape
    character themselves; the only change is that [INFO] is padded with a
    space. *)
Theorem console_line_plain (host : string) (r : record) :
  occurs "%"%char host = false ->
  occurs ESC host = false -> occurs ESC (asctime r) = false ->
  occurs ESC (levelname r) = false -> occurs ESC (message r) = false ->
  exists line,
    formatMessage host r = Some line
    /\ plain line
       = host +:+ ": " +:+ asctime r +:+ " | " +:+ padded (levelname r)
         +:+ " | " +:+ message r.
Proof.
  intros Hp Hh Ht Hl Hm.
  eexists. split; [apply formatMessage_fields; exact Hp|].
  assert (plain (levelname (paint r) +:+ " | " +:+ message (paint r))
          = padded (levelname r) +:+ " | " +:+ message r) as Htail.
  { unfold paint, padded.
    destruct (String.eqb_spec (levelname r) "INFO") as [E|_];
      [|destruct (String.eqb_spec (levelname r) "ERROR") as [E|_];
        [|destruct (String.eqb_spec (levelname r) "DEBUG") as [E|_]]];
      cbn [levelname message]; unfold plain, WHITE, RED, BLUE, RESET.
    - rewrite !append_assoc, (plain_sgr "1;97") by reflexivity.
      rewrite (plain_clean "INFO ") by reflexivity.
      rewrite (plain_sgr "0") by reflexivity.
      rewrite (plain_clean " | ") by reflexivity.
      change (plain_from false (sub_first (sgr "1;97") (message r)))
        with (plain (sub_first (sgr "1;97") (message r))).
      rewrite plain_sub_first by (reflexivity || exact Hm). reflexivity.
    - rewrite !append_assoc, (plain_sgr "1;31") by reflexivity.
      rewrite (plain_clean "ERROR") by reflexivity.
      rewrite (plain_sgr "0") by reflexivity.
      rewrite (plain_clean " | ") by reflexivity.
      change (plain_from false (sub_first (sgr "1;31") (message r)))
        with (plain (sub_first (sgr "1;31") (message r))).
      rewrite plain_sub_first by (reflexivity || exact Hm).
      rewrite E. reflexivity.
    - rewrite !append_assoc, (plain_sgr "1;94") by reflexivity.
      rewrite (plain_clean "DEBUG") by reflexivity.
      rewrite (plain_sgr "0") by reflexivity.
      rewrite (plain_clean " | ") by reflexivity.
      change (plain_from false (sub_first (sgr "1;94") (message r)))
        with (plain (sub_first (sgr "1;94") (message r))).
      rewrite plain_sub_first by (reflexivity || exact Hm).
      rewrite E. reflexivity.
    - rewrite (plain_clean (levelname r)) by exact Hl.
      rewrite (plain_clean " | ") by reflexivity.
      rewrite plain_clean_all by exact Hm. reflexivity. }
  assert (asctime (paint r) = asctime r) as Hat.
  { unfold paint. repeat destruct (String.eqb _ _); reflexivity. }
  rewrite Hat.
  unfold plain in *. unfold RED, RESET, YELLOW.
  rewrite (plain_sgr "1;31") by reflexivity.
  rewrite (plain_clean host) by exact Hh.
  rewrite (plain_sgr "0") by reflexivity.
  rewrite (plain_clean ": ") by reflexivity.
  rewrite (plain_sgr "93") by reflexivity.
  rewrite (plain_clean (asctime r)) by exact Ht.
  rewrite (plain_sgr "0") by reflexivity.
  rewrite (plain_clean " | ") by reflexivity.
  rewrite Htail. reflexivity.
Qed.

Lemma console_line_plain_witness :
  exists line,
    formatMessage "x86_64-12"
      (mkRecord "INFO" "[add]: Adds 2 and 3" "11/04 10:00:00") = Some line
    /\ plain line
       = "x86_64-12" +:+ ": " +:+ "11/04 10:00:00" +:+ " | " +:+ padded "INFO"
         +:+ " | " +:+ "[add]: Adds 2 and 3".
Proof.
  apply (console_line_plain "x86_64-12"
           (mkRecord "INFO" "[add]: Adds 2 and 3" "11/04 10:00:00"));
    reflexivity.
Defined.

Lemma label_tail_of_name (name text : string) :
  every is_label_char name = true ->
  label_tail (name +:+ "]" +:+ text) = Some (name +:+ "]", text).
Proof.
  induction name as [|c name IH]; intros H; [reflexivity|].
  simpl in H. apply andb_prop in H as [Hc Hn].
  rewrite append_cons. cbn [label_tail].
  destruct (Ascii.eqb c "]") eqn:E.
  - apply Ascii.eqb_eq in E. subst c. discriminate Hc.
  - rewrite Hc, (IH Hn). rewrite append_cons. reflexivity.
Qed.

(** X21: a message that starts with a name of letters and underscores
    between square brackets, followed on the same line by some text (as the
    messages of the tracer and of the prefixing entry points do), gets the
    bracketed name in green and the rest of its first line in the colour of
    the level; what follows the first line feed is left as it is. *)
Theorem bracketed_name_is_green (colour name text : string) (c : ascii) :
  every is_label_char name = true -> Ascii.eqb c LF = false ->
  sub_first colour ("[" +:+ name +:+ "]" +:+ String c text)
  = GREEN +:+ ("[" +:+ name +:+ "]") +:+ RESET
    +:+ colour +:+ String c (line text).1 +:+ RESET +:+ (line text).2.
Proof.
  intros Hname Hc.
  assert (match_here ("[" +:+ name +:+ "]" +:+ String c text)
          = Some ("[" +:+ name +:+ "]", String c (line text).1, (line text).2))
    as Hm.
  { unfold match_here.
    assert (label ("[" +:+ name +:+ "]" +:+ String c text)
            = Some ("[" +:+ name +:+ "]", String c text)) as ->.
    { change ("[" +:+ name +:+ "]" +:+ String c text)
        with (String "[" (name +:+ "]" +:+ String c text)).
      cbn [label]. simpl Ascii.eqb. cbv iota.
      rewrite (label_tail_of_name name (String c text) Hname). reflexivity. }
    cbn [line]. rewrite Hc. reflexivity. }
  change ("[" +:+ name +:+ "]" +:+ String c text)
    with (String "[" (name +:+ "]" +:+ String c text)) in *.
  cbn [sub_first]. rewrite Hm. reflexivity.
Qed.

Lemma bracketed_name_is_green_witness :
  sub_first WHITE ("[" +:+ "add" +:+ "]" +:+ String ":" " Adds 2 and 3")
  = GREEN +:+ ("[" +:+ "add" +:+ "]") +:+ RESET
    +:+ WHITE +:+ String ":" (line " Adds 2 and 3").1 +:+ RESET
    +:+ (line " Adds 2 and 3").2.
Proof. apply bracketed_name_is_green; reflexivity. Defined.

End ColourProps.
